(** * xDS control-plane core of the mesh controller: ADS stream and dispatcher

    A shallow embedding of
      - [pkg/envoy/ads/stream.go]   (the per-proxy ADS stream state machine)
      - [pkg/catalog/dispatcher.go] (the broadcast coalescing loop)
    together with the properties the specification states about them.

    Go values are embedded as follows: [string] as [string]; [uint64] as [N]
    (the only arithmetic on it is the overflow check of the decimal parser);
    [int] as [Z]; a Go [map] as a [gmap]; a [mapset.Set] of resource names as
    a [gset string]; a nil-able pointer as an [option]; an [(T, error)] result
    as a sum. Code that mutates the proxy or a metric is written in a small
    state monad. *)

From Stdlib Require Import ZArith NArith Ascii String.
From stdpp Require Import base decidable option gmap strings list sorting.

Local Open Scope string_scope.

(** ** A small state monad for the imperative code *)

Module St.
(** A computation on a state [W] that yields an [A]. *)
Definition M (W A : Type) : Type := W -> A * W.

Definition ret {W A} (a : A) : M W A := fun w => (a, w).
Definition bind {W A B} (m : M W A) (k : A -> M W B) : M W B :=
  fun w => let '(a, w') := m w in k a w'.
Definition gets {W A} (f : W -> A) : M W A := fun w => (f w, w).
Definition modify {W} (f : W -> W) : M W unit := fun w => (tt, f w).
End St.

Declare Scope st_scope.
Delimit Scope st_scope with st.
Notation "x <- m ;; k" := (St.bind m (fun x => k))
  (at level 100, m at next level, right associativity) : st_scope.
Notation "m ;;; k" := (St.bind m (fun _ => k))
  (at level 100, right associativity) : st_scope.

(** ** Package [strconv]: the decimal parser used for [version_info] *)

Module strconv.
Inductive NumError : Type := ErrSyntax | ErrRange.

Definition maxUint64 : N := 18446744073709551615.

(** [cutoff] is the smallest [n] with [n * 10 > maxUint64]. *)
Definition cutoff : N := (maxUint64 / 10 + 1)%N.

Definition digit (c : ascii) : option N :=
  let b := N_of_ascii c in
  if ((48 <=? b) && (b <=? 57))%N then Some (b - 48)%N else None.

(** The digit loop of [ParseUint] at base 10 and bit size 64: a byte that is
    not a decimal digit is a syntax error, a value above [maxUint64] a range
    error. *)
Fixpoint parseDigits (s : string) (n : N) : N + NumError :=
  match s with
  | EmptyString => inl n
  | String c rest =>
      match digit c with
      | None => inr ErrSyntax
      | Some d =>
          if (cutoff <=? n)%N then inr ErrRange
          else
            let n1 := (n * 10 + d)%N in
            if (maxUint64 <? n1)%N then inr ErrRange
            else parseDigits rest n1
      end
  end.

Definition ParseUint (s : string) : N + NumError :=
  match s with
  | EmptyString => inr ErrSyntax
  | _ => parseDigits s 0%N
  end.
(** The number that a string of decimal digits denotes, read from the left
    starting from [n]; [None] when a byte is no decimal digit. No bound is
    put on the number. *)
Fixpoint decimalFrom (n : N) (s : string) : option N :=
  match s with
  | EmptyString => Some n
  | String c rest =>
      match digit c with
      | Some d => decimalFrom (n * 10 + d) rest
      | None => None
      end
  end.

Definition decimal (s : string) : option N := decimalFrom 0 s.
End strconv.

(** ** Package [strings]: the two functions the core uses *)

Module gostrings.
(** [HasSuffix s suffix]:
    [len(s) >= len(suffix) && s[len(s)-len(suffix):] == suffix]. *)
Definition HasSuffix (s suffix : string) : bool :=
  (String.length suffix <=? String.length s)%nat
  && String.eqb
       (substring (String.length s - String.length suffix)
                  (String.length suffix) s)
       suffix.

(** [Split s sep] for a one-byte separator: the substrings between the
    separators, one more than there are separators. *)
Fixpoint Split (s : string) (sep : ascii) : list string :=
  match s with
  | EmptyString => [EmptyString]
  | String c rest =>
      if Ascii.eqb c sep then EmptyString :: Split rest sep
      else
        match Split rest sep with
        | [] => [String c EmptyString]
        | chunk :: chunks => String c chunk :: chunks
        end
  end.
(** [Count s sep] for a one-byte separator: how often it occurs in [s]. *)
Fixpoint Count (s : string) (sep : ascii) : nat :=
  match s with
  | EmptyString => 0
  | String c rest => (if Ascii.eqb c sep then 1 else 0) + Count rest sep
  end.
End gostrings.

(** ** Package [sort] *)

Module gosort.
Fixpoint insert (x : string) (sorted : list string) : list string :=
  match sorted with
  | [] => [x]
  | y :: sorted' =>
      if String.leb x y then x :: sorted else y :: insert x sorted'
  end.

(** [sort.Strings]: the strings of the slice in increasing order, strings
    being compared byte by byte. There is one such arrangement of a slice,
    whatever algorithm finds it; this one inserts each string in turn. *)
Fixpoint Strings (x : list string) : list string :=
  match x with
  | [] => []
  | s :: x' => insert s (Strings x')
  end.
End gosort.

(** ** Package [identity] *)

Module identity.
Record K8sServiceAccount : Type := {
  Namespace : string;
  Name : string;
}.

#[global] Instance K8sServiceAccount_eq_dec : EqDecision K8sServiceAccount.
Proof. solve_decision. Defined.
End identity.

(** ** Package [envoy]: type URIs and the per-proxy xDS state *)

Module envoy.

(** Modelled from the spec: the [envoy] package's type-URI declarations
    ([TypeURI], its constants, [ValidURI], [IsWildcardTypeURI]) are not part
    of the sources at hand. The recognized type URIs are Cluster,
    ClusterLoadAssignment, Listener, RouteConfiguration and Secret, plus the
    reserved empty sentinel; CDS and LDS are the wildcard ones. *)
Abbreviation TypeURI := string (only parsing).

Definition TypeEmptyURI : TypeURI := "".
Definition TypeSDS : TypeURI :=
  "type.googleapis.com/envoy.extensions.transport_sockets.tls.v3.Secret".
Definition TypeCDS : TypeURI :=
  "type.googleapis.com/envoy.config.cluster.v3.Cluster".
Definition TypeLDS : TypeURI :=
  "type.googleapis.com/envoy.config.listener.v3.Listener".
Definition TypeRDS : TypeURI :=
  "type.googleapis.com/envoy.config.route.v3.RouteConfiguration".
Definition TypeEDS : TypeURI :=
  "type.googleapis.com/envoy.config.endpoint.v3.ClusterLoadAssignment".

(** Modelled from the spec: the table mapping a request's [type-url] to a
    known type URI (every known type URI is keyed by its own string). *)
Definition ValidURI : gmap string string :=
  <[TypeEmptyURI := TypeEmptyURI]>
  (<[TypeSDS := TypeSDS]>
  (<[TypeCDS := TypeCDS]>
  (<[TypeLDS := TypeLDS]>
  (<[TypeRDS := TypeRDS]>
  (<[TypeEDS := TypeEDS]> ∅))))).

(** Modelled from the spec: CDS and LDS are wildcard, the remainder are
    client-subscribed. *)
Definition IsWildcardTypeURI (t : TypeURI) : bool :=
  bool_decide (t = TypeCDS) || bool_decide (t = TypeLDS).

Inductive ProxyKind : Type := KindSidecar | KindGateway.

Record PodMetadata : Type := {
  UID : string;
  Name : string;
  Namespace : string;
  ServiceAccount : identity.K8sServiceAccount;
  WorkloadKind : string;
  WorkloadName : string;
}.

(** Modelled from the spec: the [Proxy] struct and its accessors are not
    part of the sources at hand. A proxy carries its connection id, the
    certificate common name and serial number, its kind, the optional pod
    metadata and, per type URI, the last sent version, the last sent nonce,
    the last applied version, the subscribed resources and the resources
    last sent. A type URI without an entry reads as the zero value. *)
Record Proxy : Type := {
  connectionID : string;
  certificateCommonName : string;
  certificateSerialNumber : string;
  kind : ProxyKind;
  podMetadata : option PodMetadata;
  lastSentVersion : gmap string N;
  lastNonce : gmap string string;
  lastAppliedVersion : gmap string N;
  subscribedResources : gmap string (gset string);
  lastxDSResourcesSent : gmap string (gset string);
}.

(** Modelled from the spec: the accessors of [Proxy]. A getter reads the entry
    of the type URI, a setter writes it and nothing else. *)
Definition Kind (p : Proxy) : ProxyKind := kind p.
Definition GetCertificateCommonName (p : Proxy) : string :=
  certificateCommonName p.
Definition GetCertificateSerialNumber (p : Proxy) : string :=
  certificateSerialNumber p.

Definition GetLastSentVersion (p : Proxy) (t : TypeURI) : N :=
  default 0%N (lastSentVersion p !! t).
Definition GetLastSentNonce (p : Proxy) (t : TypeURI) : string :=
  default "" (lastNonce p !! t).
Definition GetLastAppliedVersion (p : Proxy) (t : TypeURI) : N :=
  default 0%N (lastAppliedVersion p !! t).
Definition GetSubscribedResources (p : Proxy) (t : TypeURI) : gset string :=
  default ∅ (subscribedResources p !! t).
Definition GetLastResourcesSent (p : Proxy) (t : TypeURI) : gset string :=
  default ∅ (lastxDSResourcesSent p !! t).

Definition SetLastSentVersion (t : TypeURI) (v : N) (p : Proxy) : Proxy :=
  {| connectionID := connectionID p;
     certificateCommonName := certificateCommonName p;
     certificateSerialNumber := certificateSerialNumber p;
     kind := kind p;
     podMetadata := podMetadata p;
     lastSentVersion := <[t := v]> (lastSentVersion p);
     lastNonce := lastNonce p;
     lastAppliedVersion := lastAppliedVersion p;
     subscribedResources := subscribedResources p;
     lastxDSResourcesSent := lastxDSResourcesSent p |}.

Definition SetLastAppliedVersion (t : TypeURI) (v : N) (p : Proxy) : Proxy :=
  {| connectionID := connectionID p;
     certificateCommonName := certificateCommonName p;
     certificateSerialNumber := certificateSerialNumber p;
     kind := kind p;
     podMetadata := podMetadata p;
     lastSentVersion := lastSentVersion p;
     lastNonce := lastNonce p;
     lastAppliedVersion := <[t := v]> (lastAppliedVersion p);
     subscribedResources := subscribedResources p;
     lastxDSResourcesSent := lastxDSResourcesSent p |}.

Definition SetSubscribedResources (t : TypeURI) (r : gset string)
    (p : Proxy) : Proxy :=
  {| connectionID := connectionID p;
     certificateCommonName := certificateCommonName p;
     certificateSerialNumber := certificateSerialNumber p;
     kind := kind p;
     podMetadata := podMetadata p;
     lastSentVersion := lastSentVersion p;
     lastNonce := lastNonce p;
     lastAppliedVersion := lastAppliedVersion p;
     subscribedResources := <[t := r]> (subscribedResources p);
     lastxDSResourcesSent := lastxDSResourcesSent p |}.

Definition SetPodMetadata (m : PodMetadata) (p : Proxy) : Proxy :=
  {| connectionID := connectionID p;
     certificateCommonName := certificateCommonName p;
     certificateSerialNumber := certificateSerialNumber p;
     kind := kind p;
     podMetadata := Some m;
     lastSentVersion := lastSentVersion p;
     lastNonce := lastNonce p;
     lastAppliedVersion := lastAppliedVersion p;
     subscribedResources := subscribedResources p;
     lastxDSResourcesSent := lastxDSResourcesSent p |}.

End envoy.

(** ** Package [metricsstore] *)

Module metricsstore.
(** Modelled from the spec: the metrics store is not part of the sources at
    hand; the three metrics the core touches are kept as counts. *)
Record MetricsStore : Type := {
  ProxyConnectCount : Z;
  ProxyReconnectCount : N;
  ProxyBroadcastEventCount : N;
}.

Definition ProxyConnectCount_Inc (m : MetricsStore) : MetricsStore :=
  {| ProxyConnectCount := ProxyConnectCount m + 1;
     ProxyReconnectCount := ProxyReconnectCount m;
     ProxyBroadcastEventCount := ProxyBroadcastEventCount m |}.
Definition ProxyConnectCount_Dec (m : MetricsStore) : MetricsStore :=
  {| ProxyConnectCount := ProxyConnectCount m - 1;
     ProxyReconnectCount := ProxyReconnectCount m;
     ProxyBroadcastEventCount := ProxyBroadcastEventCount m |}.
Definition ProxyReconnectCount_Inc (m : MetricsStore) : MetricsStore :=
  {| ProxyConnectCount := ProxyConnectCount m;
     ProxyReconnectCount := ProxyReconnectCount m + 1;
     ProxyBroadcastEventCount := ProxyBroadcastEventCount m |}.
Definition ProxyBroadcastEventCount_Inc (m : MetricsStore) : MetricsStore :=
  {| ProxyConnectCount := ProxyConnectCount m;
     ProxyReconnectCount := ProxyReconnectCount m;
     ProxyBroadcastEventCount := ProxyBroadcastEventCount m + 1 |}.
End metricsstore.

(** ** Package [registry] *)

Module registry.
(** Modelled from the spec: the proxy registry is not part of the sources at
    hand. It indexes the connected proxies by connection id; the proxy object
    itself stays with its stream, the registry holds a reference to it.
    Registration is idempotent on the connection id. *)
Record ProxyRegistry : Type := {
  connectedProxies : gset string;
}.

Definition RegisterProxy (p : envoy.Proxy) (pr : ProxyRegistry) : ProxyRegistry :=
  {| connectedProxies := {[ envoy.connectionID p ]} ∪ connectedProxies pr |}.
Definition UnregisterProxy (p : envoy.Proxy) (pr : ProxyRegistry) : ProxyRegistry :=
  {| connectedProxies := connectedProxies pr ∖ {[ envoy.connectionID p ]} |}.
Definition GetConnectedProxyCount (pr : ProxyRegistry) : Z :=
  Z.of_nat (size (connectedProxies pr)).
End registry.

(** ** Package [ads]: the request state machine of [stream.go] *)

Module ads.
Import envoy metricsstore.
Local Open Scope st_scope.

Record Status : Type := { Code : Z; Message : string }.

(** The fields of an xDS [DiscoveryRequest] the core consumes. *)
Record DiscoveryRequest : Type := {
  VersionInfo : string;
  ResourceNames : list string;
  TypeUrl : string;
  ResponseNonce : string;
  ErrorDetail : option Status;
}.

(** What [respondToRequest] reads and writes: the proxy it is handed and the
    process-wide metrics store. *)
Record ProxyState : Type := {
  proxy : Proxy;
  metrics : MetricsStore;
}.

Definition onProxy (f : Proxy -> Proxy) : St.M ProxyState unit :=
  St.modify (fun s => {| proxy := f (proxy s); metrics := metrics s |}).
Definition onMetrics (f : MetricsStore -> MetricsStore) : St.M ProxyState unit :=
  St.modify (fun s => {| proxy := proxy s; metrics := f (metrics s) |}).

Definition parseRequestVersion (discoveryRequest : DiscoveryRequest)
    : N + strconv.NumError :=
  if bool_decide (VersionInfo discoveryRequest = "") then inl 0%N
  else strconv.ParseUint (VersionInfo discoveryRequest).

Definition getRequestedResourceNamesSet (discoveryRequest : DiscoveryRequest)
    : gset string :=
  foldl (fun resourcesRequested name => resourcesRequested ∪ {[ name ]})
        ∅ (ResourceNames discoveryRequest).

(** A value held by a [mapset.Set], whose elements are of any type: a string,
    or a value of another type (here an integer). *)
Inductive Element : Type :=
| StringElement (s : string)
| IntElement (n : Z).

(** [getResourceSliceFromMapset] on the elements of the set in the order its
    iterator delivers them, which is not specified: an element that is no
    string is skipped, the strings are appended and then sorted. *)
Definition getResourceSliceFromMapset (iterated : list Element) : list string :=
  let resourceSlice :=
    foldl (fun resourceSlice elem =>
             match elem with
             | StringElement resString => (resourceSlice ++ [resString])%list
             | IntElement _ => resourceSlice
             end)
          [] iterated in
  gosort.Strings resourceSlice.

Definition respondToRequest (discoveryRequest : DiscoveryRequest)
    : St.M ProxyState bool :=
  match ValidURI !! TypeUrl discoveryRequest with
  | None => St.ret false
  | Some typeURL =>
    if bool_decide (typeURL = TypeEmptyURI) then St.ret false
    else
    match parseRequestVersion discoveryRequest with
    | inr _ => St.ret false
    | inl requestVersion =>
      match ErrorDetail discoveryRequest with
      | Some _ => St.ret false
      | None =>
        let requestNonce := ResponseNonce discoveryRequest in
        if bool_decide (requestNonce = "") then
          onProxy (SetSubscribedResources typeURL
                     (getRequestedResourceNamesSet discoveryRequest)) ;;;
          St.ret true
        else
          lastNonce <- St.gets (fun s => GetLastSentNonce (proxy s) typeURL) ;;
          if bool_decide (lastNonce = "") then
            onProxy (SetLastSentVersion typeURL requestVersion) ;;;
            onProxy (SetLastAppliedVersion typeURL requestVersion) ;;;
            onProxy (SetSubscribedResources typeURL
                       (getRequestedResourceNamesSet discoveryRequest)) ;;;
            onMetrics ProxyReconnectCount_Inc ;;;
            St.ret true
          else if bool_decide (requestNonce ≠ lastNonce) then St.ret false
          else
            onProxy (SetLastAppliedVersion typeURL requestVersion) ;;;
            if IsWildcardTypeURI typeURL then St.ret false
            else
              let resourcesRequested :=
                getRequestedResourceNamesSet discoveryRequest in
              onProxy (SetSubscribedResources typeURL resourcesRequested) ;;;
              resourcesLastSent <-
                St.gets (fun s => GetLastResourcesSent (proxy s) typeURL) ;;
              if negb (bool_decide (resourcesRequested = resourcesLastSent))
              then St.ret true
              else St.ret false
      end
    end
  end.

(** [shouldPushUpdate]: a control-plane push is allowed once an LDS or a CDS
    response has been sent to the proxy. *)
Definition shouldPushUpdate (proxy : Proxy) : bool :=
  if bool_decide (GetLastSentNonce proxy TypeLDS = "")
     && bool_decide (GetLastSentNonce proxy TypeCDS = "")
  then false
  else true.

(** *** The stream: start-up and main loop *)

(** The errors a stream returns: the three error values of the package, the
    error of a function of another package (kept as its message), and an
    error wrapped with a message by [errors.Wrap]. *)
Inductive Error : Type :=
| errTooManyConnections
| errServiceAccountMismatch
| errGrpcClosed
| errExternal (msg : string)
| errWrap (cause : Error) (msg : string).

Record OwnerReference : Type := {
  ref_Kind : string;
  ref_Name : string;
  ref_Controller : option bool;
}.

(** The fields of a Kubernetes pod that [recordPodMetadata] reads. *)
Record Pod : Type := {
  pod_UID : string;
  pod_Name : string;
  pod_Namespace : string;
  pod_ServiceAccountName : string;
  pod_OwnerReferences : list OwnerReference;
}.

(** A job for the worker pool, as built by [newJob]; the proxy, the stream
    and the server it refers to are those of the stream that builds it. *)
Record proxyResponseJob : Type := {
  typeURIs : list string;
  request : option DiscoveryRequest;
}.

(** The functions of other packages the stream calls, which are not part of
    the sources at hand: transport authentication, proxy construction, the
    pod and identity look-ups, and the effect on the proxy of the worker that
    runs a job to completion. An error of another package is kept as its
    message. *)
Class Collaborators : Type := {
  PeerContext : Type;
  ValidateClient : PeerContext -> (string * string) + string;
  GetIPFromContext : PeerContext -> string;
  NewProxy : string -> string -> string -> Proxy + string;
  GetPodFromCertificate : string -> Pod + string;
  GetServiceIdentityFromProxyCertificate : string -> string + string;
  ToK8sServiceAccount : string -> identity.K8sServiceAccount;
  runJob : proxyResponseJob -> Proxy -> Proxy;
}.

(** Modelled from the spec: [constants.DomainDelimiter], the separator of the
    components of a certificate common name. *)
Definition DomainDelimiter : ascii := "."%char.

(** The state of the server a stream reads and writes, with the process-wide
    metrics store. [workqueues] lists the jobs handed to the worker pool. *)
Record Server : Type := {
  cfg_MaxDataPlaneConnections : Z;
  proxyRegistry : registry.ProxyRegistry;
  workqueues : list proxyResponseJob;
  DefaultMetricsStore : MetricsStore;
}.

Definition withRegistry (f : registry.ProxyRegistry -> registry.ProxyRegistry)
    (s : Server) : Server :=
  {| cfg_MaxDataPlaneConnections := cfg_MaxDataPlaneConnections s;
     proxyRegistry := f (proxyRegistry s);
     workqueues := workqueues s;
     DefaultMetricsStore := DefaultMetricsStore s |}.
Definition withWorkqueues (f : list proxyResponseJob -> list proxyResponseJob)
    (s : Server) : Server :=
  {| cfg_MaxDataPlaneConnections := cfg_MaxDataPlaneConnections s;
     proxyRegistry := proxyRegistry s;
     workqueues := f (workqueues s);
     DefaultMetricsStore := DefaultMetricsStore s |}.
Definition withMetrics (f : MetricsStore -> MetricsStore) (s : Server) : Server :=
  {| cfg_MaxDataPlaneConnections := cfg_MaxDataPlaneConnections s;
     proxyRegistry := proxyRegistry s;
     workqueues := workqueues s;
     DefaultMetricsStore := f (DefaultMetricsStore s) |}.

(** The cap on data-plane connections is enabled and reached. *)
Definition capReached (s : Server) : Prop :=
  cfg_MaxDataPlaneConnections s ≠ 0%Z
  ∧ (registry.GetConnectedProxyCount (proxyRegistry s)
     >= cfg_MaxDataPlaneConnections s)%Z.

(** What the [select] of the main loop can receive. *)
Inductive StreamEvent : Type :=
| ctxDone
| quit
| requestReceived (discoveryRequest : DiscoveryRequest)
| requestsClosed
| broadcastUpdate
| certAnnouncement (certCommonName : string).

Inductive LoopOutcome : Type :=
| Continue
| Return (err : option Error).

(** The events on which the main loop returns. *)
Definition endsStream (ev : StreamEvent) : bool :=
  match ev with
  | ctxDone | quit | requestsClosed => true
  | _ => false
  end.

(** The result of running a stream on a finite list of events: it returned,
    or it is waiting in its [select] with the given proxy state. *)
Inductive StreamResult : Type :=
| Returned (err : option Error)
| Selecting (proxy : Proxy).

Section Stream.
Context `{Collaborators}.

Fixpoint controllerOf (refs : list OwnerReference) : string * string :=
  match refs with
  | [] => ("", "")
  | ref :: refs' =>
      match ref_Controller ref with
      | Some true => (ref_Kind ref, ref_Name ref)
      | _ => controllerOf refs'
      end
  end.

Definition recordPodMetadata (p : Proxy) : Proxy * option Error :=
  match Kind p with
  | KindGateway => (p, None)
  | KindSidecar =>
    match GetPodFromCertificate (GetCertificateCommonName p) with
    | inr _ => (p, None)
    | inl pod =>
      let '(workloadKind, workloadName) :=
        controllerOf (pod_OwnerReferences pod) in
      let podMeta :=
        {| UID := pod_UID pod;
           Name := pod_Name pod;
           Namespace := pod_Namespace pod;
           ServiceAccount :=
             {| identity.Namespace := pod_Namespace pod;
                identity.Name := pod_ServiceAccountName pod |};
           WorkloadKind := workloadKind;
           WorkloadName := workloadName |} in
      let p := SetPodMetadata podMeta p in
      let cn := GetCertificateCommonName p in
      match GetServiceIdentityFromProxyCertificate cn with
      | inr err => (p, Some (errExternal err))
      | inl certSA =>
        if bool_decide (ToK8sServiceAccount certSA ≠ ServiceAccount podMeta)
        then (p, Some errServiceAccountMismatch)
        else (p, None)
      end
    end
  end.

Definition isCNforProxy (proxy : Proxy) (cn : string) : bool :=
  match GetServiceIdentityFromProxyCertificate (GetCertificateCommonName proxy) with
  | inr _ => false
  | inl proxyIdentity =>
    let chunks := gostrings.Split cn DomainDelimiter in
    if (length chunks <? 3)%nat then false
    else
      match chunks with
      | chunk0 :: chunk1 :: _ =>
          bool_decide
            ({| identity.Name := chunk0; identity.Namespace := chunk1 |}
             = ToK8sServiceAccount proxyIdentity)
      | _ => false
      end
  end.

Definition newJob (typeURIs : list string)
    (discoveryRequest : option DiscoveryRequest) : proxyResponseJob :=
  {| typeURIs := typeURIs; request := discoveryRequest |}.

(** [<-s.workqueues.AddJob(job)]: the job is queued and the loop waits
    until the worker is done with it. *)
Definition AddJob (job : proxyResponseJob) : St.M (Proxy * Server) unit :=
  St.modify (fun '(p, s) => (runJob job p, withWorkqueues (fun q => (q ++ [job])%list) s)).

Definition onServer (f : Server -> Server) : St.M (Proxy * Server) unit :=
  St.modify (fun '(p, s) => (p, f s)).

(** [respondToRequest] on the stream's proxy and the metrics store. *)
Definition callRespondToRequest (discoveryRequest : DiscoveryRequest)
    : St.M (Proxy * Server) bool :=
  fun '(p, s) =>
    let '(reply, ps) :=
      respondToRequest discoveryRequest
        {| proxy := p; metrics := DefaultMetricsStore s |} in
    (reply, (proxy ps, withMetrics (fun _ => metrics ps) s)).

(** One iteration of the [for { select { ... } }] loop. *)
Definition selectCase (ev : StreamEvent) : St.M (Proxy * Server) LoopOutcome :=
  match ev with
  | ctxDone =>
      onServer (withMetrics ProxyConnectCount_Dec) ;;;
      St.ret (Return None)
  | quit =>
      onServer (withMetrics ProxyConnectCount_Dec) ;;;
      St.ret (Return None)
  | requestsClosed =>
      onServer (withMetrics ProxyConnectCount_Dec) ;;;
      St.ret (Return (Some errGrpcClosed))
  | requestReceived discoveryRequest =>
      reply <- callRespondToRequest discoveryRequest ;;
      if negb reply then St.ret Continue
      else
        let typesRequest := [TypeUrl discoveryRequest] in
        AddJob (newJob typesRequest (Some discoveryRequest)) ;;;
        St.ret Continue
  | broadcastUpdate =>
      proxy <- St.gets fst ;;
      if negb (shouldPushUpdate proxy) then St.ret Continue
      else
        AddJob (newJob [TypeCDS; TypeEDS; TypeLDS; TypeRDS] None) ;;;
        St.ret Continue
  | certAnnouncement cn =>
      proxy <- St.gets fst ;;
      if isCNforProxy proxy cn then
        AddJob (newJob [TypeSDS] None) ;;;
        St.ret Continue
      else St.ret Continue
  end.

Fixpoint mainLoop (events : list StreamEvent)
    : St.M (Proxy * Server) StreamResult :=
  match events with
  | [] => St.gets (fun st => Selecting (fst st))
  | ev :: events' =>
      outcome <- selectCase ev ;;
      match outcome with
      | Continue => mainLoop events'
      | Return err => St.ret (Returned err)
      end
  end.

(** The stream once its proxy is built (from [RegisterProxy] to the end of
    [StreamAggregatedResources]): the proxy is registered, the main loop
    runs on [events], and the deferred [UnregisterProxy] runs when the
    loop returns. *)
Definition serveProxy (proxy : Proxy) (events : list StreamEvent)
    : St.M Server StreamResult :=
  fun s =>
    let s := withRegistry (registry.RegisterProxy proxy) s in
    let '(result, (proxy', s)) := mainLoop events (proxy, s) in
    match result with
    | Returned _ => (result, withRegistry (registry.UnregisterProxy proxy') s)
    | Selecting _ => (result, s)
    end.

(** [StreamAggregatedResources] on the stream with peer context [ctx],
    receiving [events] in its main loop. *)
Definition StreamAggregatedResources (ctx : PeerContext)
    (events : list StreamEvent) : St.M Server StreamResult :=
  fun s =>
  match ValidateClient ctx with
  | inr err =>
      (Returned (Some (errWrap (errExternal err)
         "Could not start Aggregated Discovery Service gRPC stream for newly connected Envoy proxy")), s)
  | inl (certCommonName, certSerialNumber) =>
    if bool_decide (cfg_MaxDataPlaneConnections s ≠ 0%Z)
       && bool_decide (registry.GetConnectedProxyCount (proxyRegistry s)
                       >= cfg_MaxDataPlaneConnections s)%Z
    then (Returned (Some errTooManyConnections), s)
    else
      let s := withMetrics ProxyConnectCount_Inc s in
      match NewProxy certCommonName certSerialNumber (GetIPFromContext ctx) with
      | inr err => (Returned (Some (errExternal err)), s)
      | inl proxy =>
        let '(proxy, err) := recordPodMetadata proxy in
        match err with
        | Some errServiceAccountMismatch => (Returned err, s)
        | _ => serveProxy proxy events s
        end
      end
  end.

End Stream.

End ads.

(** ** Package [announcements] and [events] *)

Module announcements.
(** Modelled from the spec: the announcement types are not part of the
    sources at hand. A topic is identified by its string form, which for the
    policy topics is the object kind followed by [-added], [-deleted] or
    [-updated]. *)
Abbreviation AnnouncementType := string (only parsing).

Definition ScheduleProxyBroadcast : AnnouncementType := "schedule-proxy-broadcast".
Definition ProxyBroadcast : AnnouncementType := "proxy-broadcast".
Definition PodAdded : AnnouncementType := "pod-added".
Definition PodDeleted : AnnouncementType := "pod-deleted".
Definition PodUpdated : AnnouncementType := "pod-updated".

Definition String (a : AnnouncementType) : string := a.
End announcements.

Module events.
(** A published message; [None] is the nil object. *)
Record PubSubMessage (Obj : Type) : Type := {
  AnnouncementType : string;
  OldObj : option Obj;
  NewObj : option Obj;
}.
Arguments AnnouncementType {Obj} _.
Arguments OldObj {Obj} _.
Arguments NewObj {Obj} _.

(** What a subscriber channel delivers: a [PubSubMessage], or a value of
    another type, on which the receiver's type assertion fails. *)
Inductive Message (Obj : Type) : Type :=
| IsPubSubMessage (psubMsg : PubSubMessage Obj)
| NotPubSubMessage.
Arguments IsPubSubMessage {Obj} _.
Arguments NotPubSubMessage {Obj}.
End events.

(** ** Package [catalog]: the dispatcher of [dispatcher.go] *)

Module catalog.
Import events metricsstore.
Local Open Scope Z_scope.

(** Durations and instants are counted in nanoseconds. *)
Definition Second : Z := 1000000000.
Definition maxBroadcastDeadlineTime : Z := 15 * Second.
Definition maxGraceDeadlineTime : Z := 3 * Second.

Section Dispatcher.
(** The objects carried by the messages; [reflect.DeepEqual] on them is
    structural equality. *)
Context {Obj : Type} `{EqDecision Obj}.

Definition DeepEqual (a b : option Obj) : bool := bool_decide (a = b).

Definition isDeltaUpdate (psubMsg : PubSubMessage Obj) : bool :=
  negb (gostrings.HasSuffix (announcements.String (AnnouncementType psubMsg)) "updated"
        && DeepEqual (OldObj psubMsg) (NewObj psubMsg)).

(** The local variables of [dispatcher]. A timer channel is [Some t] when
    it was made by [time.After] and delivers at instant [t], and [None]
    when it is a fresh channel on which nothing is ever sent. *)
Record Coalescing : Type := {
  broadcastScheduled : bool;
  chanMovingDeadline : option Z;
  chanMaxDeadline : option Z;
}.

(** What [dispatcher] does to the rest of the process: the messages it
    publishes and the metrics it counts. *)
Record Effects : Type := {
  published : list (PubSubMessage Obj);
  metrics : MetricsStore;
}.

Definition unscheduled : Coalescing :=
  {| broadcastScheduled := false;
     chanMovingDeadline := None;
     chanMaxDeadline := None |}.

Definition After (now d : Z) : option Z := Some (now + d).

Definition ready (now : Z) (ch : option Z) : bool :=
  match ch with
  | Some t => bool_decide (t <= now)
  | None => false
  end.

(** The cases of the [select]. *)
Inductive SelectCase : Type :=
| subChannel (message : Message Obj)
| movingDeadline
| maxDeadline.

Definition broadcast (fx : Effects) : Effects :=
  {| published :=
       published fx
       ++ [ {| AnnouncementType := announcements.ProxyBroadcast;
               OldObj := None; NewObj := None |} ];
     metrics := ProxyBroadcastEventCount_Inc (metrics fx) |}.

(** One iteration of the loop at instant [now], taking case [c] of the
    [select]; [None] when that case cannot be taken because its channel
    has nothing to deliver. *)
Definition selectCase (now : Z) (c : SelectCase) (st : Coalescing * Effects)
    : option (Coalescing * Effects) :=
  let '(co, fx) := st in
  match c with
  | subChannel NotPubSubMessage => Some (co, fx)
  | subChannel (IsPubSubMessage psubMessage) =>
      let delta := isDeltaUpdate psubMessage in
      if delta
         || bool_decide (AnnouncementType psubMessage
                         = announcements.ScheduleProxyBroadcast)
      then
        if negb (broadcastScheduled co) then
          Some ({| broadcastScheduled := true;
                   chanMovingDeadline := After now maxGraceDeadlineTime;
                   chanMaxDeadline := After now maxBroadcastDeadlineTime |}, fx)
        else
          Some ({| broadcastScheduled := broadcastScheduled co;
                   chanMovingDeadline := After now maxGraceDeadlineTime;
                   chanMaxDeadline := chanMaxDeadline co |}, fx)
      else Some (co, fx)
  | movingDeadline =>
      if ready now (chanMovingDeadline co)
      then Some (unscheduled, broadcast fx)
      else None
  | maxDeadline =>
      if ready now (chanMaxDeadline co)
      then Some (unscheduled, broadcast fx)
      else None
  end.

(** The loop on a finite trace of timed [select] cases. *)
Fixpoint dispatcherFrom (trace : list (Z * SelectCase))
    (st : Coalescing * Effects) : option (Coalescing * Effects) :=
  match trace with
  | [] => Some st
  | (now, c) :: trace' =>
      match selectCase now c st with
      | Some st' => dispatcherFrom trace' st'
      | None => None
      end
  end.

Definition dispatcher (trace : list (Z * SelectCase)) (fx : Effects)
    : option (Coalescing * Effects) :=
  dispatcherFrom trace (unscheduled, fx).

(** A message qualifies for a broadcast when the loop schedules or re-arms
    one for it. *)
Definition qualifies (psubMessage : PubSubMessage Obj) : bool :=
  isDeltaUpdate psubMessage
  || bool_decide (AnnouncementType psubMessage
                  = announcements.ScheduleProxyBroadcast).

(** Timed messages, as the [select] cases that receive them. *)
Definition arrivals (msgs : list (Z * PubSubMessage Obj))
    : list (Z * SelectCase) :=
  map (fun tm => (fst tm, subChannel (IsPubSubMessage (snd tm)))) msgs.

(** The instant of the last of [msgs], or [t0] when there is none. *)
Fixpoint lastArrival (t0 : Z) (msgs : list (Z * PubSubMessage Obj)) : Z :=
  match msgs with
  | [] => t0
  | tm :: msgs' => lastArrival (fst tm) msgs'
  end.

(** The [select] cases that are not ignored: a qualifying message, or a
    timer. *)
Definition relevant (c : SelectCase) : bool :=
  match c with
  | subChannel (IsPubSubMessage psubMessage) => qualifies psubMessage
  | subChannel NotPubSubMessage => false
  | movingDeadline | maxDeadline => true
  end.

(** How many qualifying messages a trace delivers. *)
Fixpoint qualifyingCount (trace : list (Z * SelectCase)) : nat :=
  match trace with
  | [] => 0
  | (_, subChannel (IsPubSubMessage psubMessage)) :: trace' =>
      (if qualifies psubMessage then 1 else 0) + qualifyingCount trace'
  | _ :: trace' => qualifyingCount trace'
  end.

(** The timers are armed when a broadcast is scheduled and unarmed when none
    is. *)
Definition timersFollowFlag (co : Coalescing) : Prop :=
  if broadcastScheduled co
  then is_Some (chanMovingDeadline co) ∧ is_Some (chanMaxDeadline co)
  else chanMovingDeadline co = None ∧ chanMaxDeadline co = None.

End Dispatcher.
End catalog.

(** ** Package [cds]: removal of duplicate clusters in [response.go] *)

Module cds.
(** An xDS cluster: its name, and the rest of its configuration. *)
Record Cluster : Type := {
  Name : string;
  Config : string;
}.

(** [removeDups]: the loop keeps the set of names already added and the
    resources kept so far, and skips a cluster whose name was already
    added. *)
Definition removeDups (clusters : list Cluster) : list Cluster :=
  snd (foldl (fun '(alreadyAdded, cdsResources) cluster =>
                if bool_decide (Name cluster ∈ (alreadyAdded : gset string))
                then (alreadyAdded, cdsResources)
                else ({[ Name cluster ]} ∪ alreadyAdded,
                      (cdsResources ++ [cluster])%list))
             (∅, []) clusters).
End cds.

(** ** Package [registry]: [announcement_handlers.go] *)

Module registry_handlers.
Import events.

(** The object of a message: a pod, or an object of another type. *)
Inductive K8sObject : Type :=
| PodObject (pod : ads.Pod)
| OtherObject.

#[global] Instance OwnerReference_eq_dec : EqDecision ads.OwnerReference.
Proof. solve_decision. Defined.
#[global] Instance Pod_eq_dec : EqDecision ads.Pod.
Proof. solve_decision. Defined.
#[global] Instance K8sObject_eq_dec : EqDecision K8sObject.
Proof. solve_decision. Defined.

(** What the handler reads and writes: the registry's index from pod UID to
    certificate common name, the common names handed to the certificate
    manager's [ReleaseCertificate], in order, and the messages published. *)
Record HandlerState : Type := {
  podUIDToCN : gmap string string;
  released : list string;
  published : list (PubSubMessage K8sObject);
}.

(** What the [select] of the handler's goroutine can receive. *)
Inductive HandlerEvent : Type :=
| stop
| podDeleteSubscription (podDeletedMsg : Message K8sObject).

(** The body of the [podDeleteSubscription] case. *)
Definition handlePodDeleted (podDeletedMsg : Message K8sObject)
    (st : HandlerState) : HandlerState :=
  match podDeletedMsg with
  | NotPubSubMessage => st
  | IsPubSubMessage psubMessage =>
    match OldObj psubMessage with
    | Some (PodObject deletedPodObj) =>
      let podUID := ads.pod_UID deletedPodObj in
      match podUIDToCN st !! podUID with
      | Some endpointCN =>
          {| podUIDToCN := podUIDToCN st;
             released := (released st ++ [endpointCN])%list;
             published :=
               (published st
                ++ [ {| AnnouncementType := announcements.ScheduleProxyBroadcast;
                        OldObj := None; NewObj := None |} ])%list |}
      | None => st
      end
    | _ => st
    end
  end.

(** The goroutine of [ReleaseCertificateHandler] on a finite list of events:
    it handles messages until it is told to stop. The boolean tells whether
    it returned. *)
Fixpoint ReleaseCertificateHandler (evs : list HandlerEvent)
    (st : HandlerState) : bool * HandlerState :=
  match evs with
  | [] => (false, st)
  | stop :: _ => (true, st)
  | podDeleteSubscription podDeletedMsg :: evs' =>
      ReleaseCertificateHandler evs' (handlePodDeleted podDeletedMsg st)
  end.
End registry_handlers.

(** ** Concrete proxies, requests and collaborators

    Used below to evaluate the embedding in the scenarios of the
    specification. *)

Module samples.
Import envoy metricsstore ads.

Definition noMetrics : MetricsStore :=
  {| ProxyConnectCount := 0; ProxyReconnectCount := 0;
     ProxyBroadcastEventCount := 0 |}.

(** A proxy just built for a stream: nothing sent yet, no pod metadata. *)
Definition builtProxy (cn serial : string) (k : ProxyKind) : Proxy :=
  {| connectionID := "conn-" ++ serial;
     certificateCommonName := cn;
     certificateSerialNumber := serial;
     kind := k;
     podMetadata := None;
     lastSentVersion := ∅;
     lastNonce := ∅;
     lastAppliedVersion := ∅;
     subscribedResources := ∅;
     lastxDSResourcesSent := ∅ |}.

Definition freshProxy : Proxy :=
  builtProxy "bookbuyer.default.cluster.local" "1" KindSidecar.

Definition gatewayProxy : Proxy :=
  builtProxy "gateway.osm-system.cluster.local" "1" KindGateway.

(** The proxy after a first CDS response (version 1, nonce [n1]) and an RDS
    response (version 4, nonce [nr]) that emitted route [A] of the
    subscribed routes [A] and [B]. *)
Definition servedProxy : Proxy :=
  {| connectionID := "conn-1";
     certificateCommonName := "bookbuyer.default.cluster.local";
     certificateSerialNumber := "1";
     kind := KindSidecar;
     podMetadata := None;
     lastSentVersion := <[TypeCDS := 1%N]> (<[TypeRDS := 4%N]> ∅);
     lastNonce := <[TypeCDS := "n1"]> (<[TypeRDS := "nr"]> ∅);
     lastAppliedVersion := ∅;
     subscribedResources := <[TypeRDS := {[ "A"; "B" ]}]> ∅;
     lastxDSResourcesSent := <[TypeRDS := {[ "A" ]}]> ∅ |}.

(** A proxy holding a nonce under the reserved empty type URI. No response is
    ever sent for that type URI, so no stream brings a proxy into this state;
    the handler accepts it all the same. *)
Definition strayProxy : Proxy :=
  {| connectionID := "conn-1";
     certificateCommonName := "bookbuyer.default.cluster.local";
     certificateSerialNumber := "1";
     kind := KindSidecar;
     podMetadata := None;
     lastSentVersion := ∅;
     lastNonce := <[TypeEmptyURI := "n0"]> ∅;
     lastAppliedVersion := ∅;
     subscribedResources := ∅;
     lastxDSResourcesSent := ∅ |}.

Definition fresh : ProxyState := {| proxy := freshProxy; metrics := noMetrics |}.
Definition stray : ProxyState := {| proxy := strayProxy; metrics := noMetrics |}.
Definition served : ProxyState := {| proxy := servedProxy; metrics := noMetrics |}.

Definition mkRequest (typeUrl version nonce : string) (names : list string)
    (err : option Status) : DiscoveryRequest :=
  {| VersionInfo := version; ResourceNames := names; TypeUrl := typeUrl;
     ResponseNonce := nonce; ErrorDetail := err |}.

Definition rejected : Status := {| Code := 3; Message := "invalid listener" |}.

Definition thePod : Pod :=
  {| pod_UID := "uid-1"; pod_Name := "bookbuyer-7f9"; pod_Namespace := "default";
     pod_ServiceAccountName := "bookbuyer";
     pod_OwnerReferences :=
       [ {| ref_Kind := "ReplicaSet"; ref_Name := "bookbuyer-7f9";
            ref_Controller := Some true |} ] |}.

(** Collaborators of a cluster with one pod, [bookbuyer]. The peer context
    is the certificate common name of the peer ("" for a peer without
    one); a common name whose first component is [gateway] is a gateway's;
    the pod is found from the first component of the common name; a service
    identity is a common name of the form
    [<service-account>.<namespace>.<trust-domain>] with a two-component
    trust domain. *)
#[local] Instance oneCluster : Collaborators :=
  {| PeerContext := string;
     ValidateClient ctx :=
       if bool_decide (ctx = "") then inr "no peer found"
       else inl (ctx, "1");
     GetIPFromContext _ := "10.0.0.7";
     NewProxy cn serial _ :=
       match gostrings.Split cn DomainDelimiter with
       | "gateway" :: _ => inl (builtProxy cn serial KindGateway)
       | _ => inl (builtProxy cn serial KindSidecar)
       end;
     GetPodFromCertificate cn :=
       match gostrings.Split cn DomainDelimiter with
       | "bookbuyer" :: _ => inl thePod
       | _ => inr "pod not found"
       end;
     GetServiceIdentityFromProxyCertificate cn :=
       match gostrings.Split cn DomainDelimiter with
       | [_; _; _; _] => inl cn
       | _ => inr "invalid certificate common name"
       end;
     ToK8sServiceAccount si :=
       match gostrings.Split si DomainDelimiter with
       | name :: namespace :: _ =>
           {| identity.Namespace := namespace; identity.Name := name |}
       | _ => {| identity.Namespace := ""; identity.Name := "" |}
       end;
     runJob _ p := p |}.

(** Dispatcher messages about objects named by a string. *)
Definition podAdded : events.PubSubMessage string :=
  {| events.AnnouncementType := announcements.PodAdded;
     events.OldObj := None; events.NewObj := Some "pod-a" |}.
Definition podResynced : events.PubSubMessage string :=
  {| events.AnnouncementType := announcements.PodUpdated;
     events.OldObj := Some "pod-a"; events.NewObj := Some "pod-a" |}.
Definition podChanged : events.PubSubMessage string :=
  {| events.AnnouncementType := announcements.PodUpdated;
     events.OldObj := Some "pod-a"; events.NewObj := Some "pod-a2" |}.
Definition broadcastRequested : events.PubSubMessage string :=
  {| events.AnnouncementType := announcements.ScheduleProxyBroadcast;
     events.OldObj := None; events.NewObj := None |}.

Definition nothingPublished : catalog.Effects (Obj := string) :=
  {| catalog.published := []; catalog.metrics := noMetrics |}.

Definition idleServer : Server :=
  {| cfg_MaxDataPlaneConnections := 0;
     proxyRegistry := {| registry.connectedProxies := ∅ |};
     workqueues := [];
     DefaultMetricsStore := noMetrics |}.

(** A server whose cap of one connection is reached. *)
Definition fullServer : Server :=
  {| cfg_MaxDataPlaneConnections := 1;
     proxyRegistry := {| registry.connectedProxies := {[ "conn-7" ]} |};
     workqueues := [];
     DefaultMetricsStore := noMetrics |}.
End samples.

(** * Properties of the request state machine *)

Module ads_request.
Import envoy metricsstore ads.

(** ** The type-URI table *)

Lemma ValidURI_keyed_by_itself (typeUrl typeURL : string) :
  ValidURI !! typeUrl = Some typeURL → typeURL = typeUrl.
Proof.
  unfold ValidURI. intros Hlookup.
  repeat (apply lookup_insert_Some in Hlookup
          as [[<- <-] | [_ Hlookup]]; [reflexivity |]).
  rewrite lookup_empty in Hlookup. discriminate.
Qed.

Lemma wildcard_is_CDS_or_LDS (typeURL : string) :
  IsWildcardTypeURI typeURL = true ↔ typeURL = TypeCDS ∨ typeURL = TypeLDS.
Proof.
  unfold IsWildcardTypeURI. rewrite orb_true_iff, !bool_decide_eq_true.
  reflexivity.
Qed.

(** ** The requested resource names, as a set *)

Lemma foldl_add_names (names : list string) (acc : gset string) :
  foldl (fun resourcesRequested name => resourcesRequested ∪ {[ name ]}) acc names
  = acc ∪ list_to_set names.
Proof.
  revert acc. induction names as [| name names IH]; intros acc; simpl.
  - by rewrite (right_id_L ∅ (∪)).
  - by rewrite IH, (assoc_L (∪)).
Qed.

Lemma requested_names_set (req : DiscoveryRequest) :
  getRequestedResourceNamesSet req = list_to_set (ResourceNames req).
Proof.
  unfold getRequestedResourceNamesSet.
  by rewrite foldl_add_names, (left_id_L ∅ (∪)).
Qed.

(** ** The version parser *)

Lemma empty_version_is_zero (req : DiscoveryRequest) :
  VersionInfo req = "" → parseRequestVersion req = inl 0%N.
Proof. intros Hempty. unfold parseRequestVersion. rewrite Hempty. reflexivity. Qed.

Lemma parseDigits_in_range (s : string) (n v : N) :
  (n <= strconv.maxUint64)%N →
  strconv.parseDigits s n = inl v → (v <= strconv.maxUint64)%N.
Proof.
  revert n. induction s as [| c rest IH]; intros n Hn; simpl.
  - intros [= ->]. exact Hn.
  - destruct (strconv.digit c) as [d |]; [| discriminate].
    destruct (strconv.cutoff <=? n)%N; [discriminate |].
    destruct (strconv.maxUint64 <? n * 10 + d)%N eqn:Hover; [discriminate |].
    apply IH. apply N.ltb_ge in Hover. exact Hover.
Qed.

(** A parsed version is a 64-bit unsigned integer. *)
Lemma parsed_version_is_uint64 (req : DiscoveryRequest) (v : N) :
  parseRequestVersion req = inl v → (v <= strconv.maxUint64)%N.
Proof.
  unfold parseRequestVersion. case_bool_decide.
  - intros [= <-]. vm_compute. discriminate.
  - unfold strconv.ParseUint. destruct (VersionInfo req) eqn:Hv; [discriminate |].
    apply parseDigits_in_range. vm_compute. discriminate.
Qed.

(** ** Stepping through [respondToRequest] *)

(** The checks that precede the nonce logic, once passed, leave the nonce
    logic of the function. *)
Lemma respondToRequest_past_checks (req : DiscoveryRequest) (s : ProxyState)
    (typeURL : string) (requestVersion : N) :
  ValidURI !! TypeUrl req = Some typeURL →
  typeURL ≠ TypeEmptyURI →
  parseRequestVersion req = inl requestVersion →
  ErrorDetail req = None →
  respondToRequest req s =
    if bool_decide (ResponseNonce req = "") then
      (true, {| proxy := SetSubscribedResources typeURL
                           (getRequestedResourceNamesSet req) (proxy s);
                metrics := metrics s |})
    else if bool_decide (GetLastSentNonce (proxy s) typeURL = "") then
      (true, {| proxy := SetSubscribedResources typeURL
                           (getRequestedResourceNamesSet req)
                           (SetLastAppliedVersion typeURL requestVersion
                              (SetLastSentVersion typeURL requestVersion (proxy s)));
                metrics := ProxyReconnectCount_Inc (metrics s) |})
    else if bool_decide (ResponseNonce req ≠ GetLastSentNonce (proxy s) typeURL) then
      (false, s)
    else if IsWildcardTypeURI typeURL then
      (false, {| proxy := SetLastAppliedVersion typeURL requestVersion (proxy s);
                 metrics := metrics s |})
    else
      (negb (bool_decide (getRequestedResourceNamesSet req
                          = GetLastResourcesSent (proxy s) typeURL)),
       {| proxy := SetSubscribedResources typeURL
                     (getRequestedResourceNamesSet req)
                     (SetLastAppliedVersion typeURL requestVersion (proxy s));
          metrics := metrics s |}).
Proof.
  intros Hvalid Hsentinel Hparse Herr.
  unfold respondToRequest. rewrite Hvalid.
  rewrite (bool_decide_eq_false_2 _ Hsentinel). rewrite Hparse, Herr.
  destruct s as [p m].
  unfold St.bind, St.ret, St.gets, onProxy, onMetrics, St.modify; simpl.
  destruct (bool_decide (ResponseNonce req = "")); simpl; [reflexivity |].
  destruct (bool_decide (GetLastSentNonce p typeURL = "")); simpl;
    [reflexivity |].
  destruct (bool_decide (ResponseNonce req ≠ GetLastSentNonce p typeURL));
    simpl; [reflexivity |].
  destruct (IsWildcardTypeURI typeURL); simpl; [reflexivity |].
  unfold GetLastResourcesSent; simpl.
  destruct (bool_decide (getRequestedResourceNamesSet req
                         = default ∅ (lastxDSResourcesSent p !! typeURL)));
    reflexivity.
Qed.

(** ** First request on a stream *)

(** C3. A request with a known, non-sentinel type URI, a parseable version,
    no error detail and an empty response nonce makes the handler reply and
    set the subscribed resources of that type URI to the request's resource
    names; the last sent version, the last sent nonce and the last applied
    version are not modified (nor is anything else). *)
Theorem first_request_subscribes_and_replies
    (s : ProxyState) (req : DiscoveryRequest)
    (typeURL : string) (requestVersion : N) :
  ValidURI !! TypeUrl req = Some typeURL →
  typeURL ≠ TypeEmptyURI →
  parseRequestVersion req = inl requestVersion →
  ErrorDetail req = None →
  ResponseNonce req = "" →
  let requested : gset string := list_to_set (ResourceNames req) in
  let s' := snd (respondToRequest req s) in
  fst (respondToRequest req s) = true
  ∧ GetSubscribedResources (proxy s') typeURL = requested
  ∧ lastSentVersion (proxy s') = lastSentVersion (proxy s)
  ∧ lastNonce (proxy s') = lastNonce (proxy s)
  ∧ lastAppliedVersion (proxy s') = lastAppliedVersion (proxy s)
  ∧ s' = {| proxy := SetSubscribedResources typeURL requested (proxy s);
            metrics := metrics s |}.
Proof.
  intros Hvalid Hsentinel Hparse Herr Hnonce requested s'. subst s'.
  rewrite (respondToRequest_past_checks _ _ _ _ Hvalid Hsentinel Hparse Herr).
  rewrite (bool_decide_eq_true_2 _ Hnonce), requested_names_set. simpl.
  repeat split; try reflexivity.
  unfold GetSubscribedResources; simpl. by rewrite lookup_insert_eq.
Qed.

(** Scenario S1: the first CDS request on a stream, with an empty version,
    an empty nonce and no resource names. *)
Lemma first_request_subscribes_and_replies_witness :
  let req := samples.mkRequest TypeCDS "" "" [] None in
  ValidURI !! TypeUrl req = Some TypeCDS
  ∧ parseRequestVersion req = inl 0%N
  ∧ fst (respondToRequest req samples.fresh) = true
  ∧ lastNonce (proxy (snd (respondToRequest req samples.fresh))) = ∅.
Proof.
  pose proof (first_request_subscribes_and_replies samples.fresh
                (samples.mkRequest TypeCDS "" "" [] None) TypeCDS 0%N) as Hthm.
  simpl. split; [| split; [| split]].
  - vm_compute; reflexivity.
  - vm_compute; reflexivity.
  - apply Hthm; [vm_compute; reflexivity | discriminate | reflexivity
                 | reflexivity | reflexivity].
  - apply Hthm; [vm_compute; reflexivity | discriminate | reflexivity
                 | reflexivity | reflexivity].
Defined.

(** ** NACK *)

(** C6. A request that carries an error detail gets no reply and changes
    nothing: the last sent version, the last sent nonce, the last applied
    version, the subscribed resources and the resources last sent of every
    type URI keep their values, as does the rest of the state. *)
Theorem nack_is_inert (s : ProxyState) (req : DiscoveryRequest) :
  ErrorDetail req ≠ None →
  respondToRequest req s = (false, s).
Proof.
  intros Hnack. unfold respondToRequest.
  destruct (ValidURI !! TypeUrl req) as [typeURL |]; [| reflexivity].
  case_bool_decide; [reflexivity |].
  destruct (parseRequestVersion req) as [requestVersion | err]; [| reflexivity].
  destruct (ErrorDetail req) as [detail |]; [reflexivity | congruence].
Qed.

(** A NACK of the CDS response last sent, on its nonce. *)
Lemma nack_is_inert_witness :
  let req := samples.mkRequest TypeCDS "1" "n1" [] (Some samples.rejected) in
  ResponseNonce req = GetLastSentNonce samples.servedProxy TypeCDS
  ∧ respondToRequest req samples.served = (false, samples.served).
Proof.
  simpl. split.
  - vm_compute; reflexivity.
  - apply (nack_is_inert samples.served
             (samples.mkRequest TypeCDS "1" "n1" [] (Some samples.rejected))).
    discriminate.
Defined.

(** ** Dropped requests *)

(** C7. A request is dropped, with no reply and no change of state, when its
    type URL is unknown, or is the reserved empty sentinel, or its version
    does not parse (an empty version parses as 0 and is no failure), or when
    it carries no error detail and a non-empty response nonce that differs
    from the non-empty nonce last sent for its type URI. *)
Theorem dropped_requests_change_nothing (s : ProxyState) (req : DiscoveryRequest) :
  ValidURI !! TypeUrl req = None
  ∨ ValidURI !! TypeUrl req = Some TypeEmptyURI
  ∨ (∃ err, parseRequestVersion req = inr err)
  ∨ (ErrorDetail req = None
     ∧ ResponseNonce req ≠ ""
     ∧ GetLastSentNonce (proxy s) (TypeUrl req) ≠ ""
     ∧ ResponseNonce req ≠ GetLastSentNonce (proxy s) (TypeUrl req)) →
  respondToRequest req s = (false, s)
  ∧ (VersionInfo req = "" → parseRequestVersion req = inl 0%N).
Proof.
  intros Hcase. split; [| apply empty_version_is_zero].
  destruct (ValidURI !! TypeUrl req) as [typeURL |] eqn:Hvalid;
    [| unfold respondToRequest; by rewrite Hvalid].
  destruct (decide (typeURL = TypeEmptyURI)) as [-> | Hsentinel];
    [unfold respondToRequest; by rewrite Hvalid |].
  destruct (parseRequestVersion req) as [requestVersion | err] eqn:Hparse;
    [| unfold respondToRequest; rewrite Hvalid, Hparse;
       by rewrite (bool_decide_eq_false_2 _ Hsentinel)].
  destruct Hcase as [Hunknown | [Hempty | [[err Hfail] | Hstale]]];
    [discriminate | congruence | discriminate |].
  destruct Hstale as (Herr & Hnonce & Hlast & Hdiffer).
  pose proof (ValidURI_keyed_by_itself _ _ Hvalid) as ->.
  rewrite (respondToRequest_past_checks _ _ _ _ Hvalid Hsentinel Hparse Herr).
  rewrite (bool_decide_eq_false_2 _ Hnonce), (bool_decide_eq_false_2 _ Hlast).
  by rewrite (bool_decide_eq_true_2 _ Hdiffer).
Qed.

(** An RDS request on the nonce of a response that a later one superseded. *)
Lemma dropped_requests_change_nothing_witness :
  let req := samples.mkRequest TypeRDS "3" "older" ["A"; "C"] None in
  ResponseNonce req ≠ GetLastSentNonce samples.servedProxy TypeRDS
  ∧ respondToRequest req samples.served = (false, samples.served).
Proof.
  simpl. split.
  - vm_compute. discriminate.
  - apply (dropped_requests_change_nothing samples.served
             (samples.mkRequest TypeRDS "3" "older" ["A"; "C"] None)).
    right; right; right. vm_compute. repeat split; discriminate.
Defined.

(** ** Reconnection *)

(** A request the handler decides to reply to puts exactly one job on the
    work queue, for the requested type URL alone. *)
Lemma reply_enqueues_one_job `{Collaborators}
    (req : DiscoveryRequest) (p : Proxy) (srv : Server) :
  fst (respondToRequest req {| proxy := p; metrics := DefaultMetricsStore srv |})
    = true →
  workqueues (snd (snd (selectCase (requestReceived req) (p, srv))))
    = (workqueues srv ++ [newJob [TypeUrl req] (Some req)])%list.
Proof.
  intros Hreply. unfold selectCase, callRespondToRequest, St.bind.
  destruct (respondToRequest req _) as [reply ps]. simpl in Hreply. subst reply.
  reflexivity.
Qed.

(** A request the handler decides not to reply to leaves the work queue as
    it is. *)
Lemma no_reply_enqueues_nothing `{Collaborators}
    (req : DiscoveryRequest) (p : Proxy) (srv : Server) :
  fst (respondToRequest req {| proxy := p; metrics := DefaultMetricsStore srv |})
    = false →
  workqueues (snd (snd (selectCase (requestReceived req) (p, srv))))
    = workqueues srv.
Proof.
  intros Hreply. unfold selectCase, callRespondToRequest, St.bind.
  destruct (respondToRequest req _) as [reply ps]. simpl in Hreply. subst reply.
  reflexivity.
Qed.

(** C2, as amended. A request with a known, non-sentinel type URI and a
    parseable version, with a non-empty response nonce and no error detail,
    reaching a proxy that has no nonce last sent for that type URI, makes
    the handler set the last sent version and the last applied version to
    the parsed version, set the subscribed resources to the request's
    resource names, count one proxy reconnect, and reply; nothing else
    changes, and in the main loop the reply puts exactly one job on the work
    queue. *)
Theorem reconnect_adopts_version `{Collaborators}
    (s : ProxyState) (req : DiscoveryRequest)
    (typeURL : string) (requestVersion : N) :
  ValidURI !! TypeUrl req = Some typeURL →
  typeURL ≠ TypeEmptyURI →
  parseRequestVersion req = inl requestVersion →
  ErrorDetail req = None →
  ResponseNonce req ≠ "" →
  GetLastSentNonce (proxy s) typeURL = "" →
  let requested : gset string := list_to_set (ResourceNames req) in
  let s' := snd (respondToRequest req s) in
  fst (respondToRequest req s) = true
  ∧ GetLastSentVersion (proxy s') typeURL = requestVersion
  ∧ GetLastAppliedVersion (proxy s') typeURL = requestVersion
  ∧ GetSubscribedResources (proxy s') typeURL = requested
  ∧ ProxyReconnectCount (metrics s') = (ProxyReconnectCount (metrics s) + 1)%N
  ∧ s' = {| proxy :=
              SetSubscribedResources typeURL requested
                (SetLastAppliedVersion typeURL requestVersion
                   (SetLastSentVersion typeURL requestVersion (proxy s)));
            metrics := ProxyReconnectCount_Inc (metrics s) |}
  ∧ ∀ srv : Server,
      DefaultMetricsStore srv = metrics s →
      workqueues (snd (snd (selectCase (requestReceived req) (proxy s, srv))))
        = (workqueues srv ++ [newJob [TypeUrl req] (Some req)])%list.
Proof.
  intros Hvalid Hsentinel Hparse Herr Hnonce Hlast requested s'.
  assert (respondToRequest req s
          = (true,
             {| proxy :=
                  SetSubscribedResources typeURL requested
                    (SetLastAppliedVersion typeURL requestVersion
                       (SetLastSentVersion typeURL requestVersion (proxy s)));
                metrics := ProxyReconnectCount_Inc (metrics s) |})) as Hrun.
  { rewrite (respondToRequest_past_checks _ _ _ _ Hvalid Hsentinel Hparse Herr).
    rewrite (bool_decide_eq_false_2 _ Hnonce), (bool_decide_eq_true_2 _ Hlast).
    by rewrite requested_names_set. }
  subst s'. rewrite Hrun. simpl.
  unfold GetLastSentVersion, GetLastAppliedVersion, GetSubscribedResources; simpl.
  rewrite !lookup_insert_eq. repeat split; try reflexivity.
  intros srv Hmetrics. apply reply_enqueues_one_job.
  rewrite Hmetrics. destruct s as [p m]. simpl. by rewrite Hrun.
Qed.

(** Scenario S6: on a fresh stream the first LDS request carries version 42
    and the nonce of another control plane. *)
Lemma reconnect_adopts_version_witness :
  let req := samples.mkRequest TypeLDS "42" "prev" [] None in
  GetLastSentNonce samples.freshProxy TypeLDS = ""
  ∧ fst (respondToRequest req samples.fresh) = true
  ∧ GetLastAppliedVersion (proxy (snd (respondToRequest req samples.fresh))) TypeLDS
    = 42%N.
Proof.
  pose proof (@reconnect_adopts_version samples.oneCluster samples.fresh
                (samples.mkRequest TypeLDS "42" "prev" [] None) TypeLDS 42%N)
    as Hthm.
  simpl. split; [reflexivity |].
  assert (let req := samples.mkRequest TypeLDS "42" "prev" [] None in
          fst (respondToRequest req samples.fresh) = true
          ∧ GetLastSentVersion (proxy (snd (respondToRequest req samples.fresh))) TypeLDS = 42%N
          ∧ GetLastAppliedVersion (proxy (snd (respondToRequest req samples.fresh))) TypeLDS = 42%N)
    as (Hreply & _ & Happlied).
  { simpl.
    destruct Hthm as (H1 & H2 & H3 & _);
      [vm_compute; reflexivity | discriminate | vm_compute; reflexivity
       | reflexivity | discriminate | reflexivity | ].
    exact (conj H1 (conj H2 H3)). }
  exact (conj Hreply Happlied).
Defined.

(** The claim C2 as it is stated does not ask for a known, non-sentinel type
    URI nor for a parseable version. On a fresh proxy, each of the three
    requests below has a non-empty response nonce and no error detail, and
    the proxy has no nonce last sent for its type URI; yet the handler
    does not reply and changes nothing: the first has the reserved empty
    type URL, the second a version that is no decimal number, the third an
    unknown type URL. *)
Lemma reconnect_needs_known_type_and_version :
  let sentinel := samples.mkRequest TypeEmptyURI "42" "prev" [] None in
  let badVersion := samples.mkRequest TypeLDS "v42" "prev" [] None in
  let unknown := samples.mkRequest "type.googleapis.com/unknown" "42" "prev" [] None in
  (ResponseNonce sentinel ≠ "" ∧ ErrorDetail sentinel = None
   ∧ GetLastSentNonce samples.freshProxy (TypeUrl sentinel) = ""
   ∧ respondToRequest sentinel samples.fresh = (false, samples.fresh))
  ∧ (ResponseNonce badVersion ≠ "" ∧ ErrorDetail badVersion = None
     ∧ GetLastSentNonce samples.freshProxy (TypeUrl badVersion) = ""
     ∧ respondToRequest badVersion samples.fresh = (false, samples.fresh))
  ∧ (ResponseNonce unknown ≠ "" ∧ ErrorDetail unknown = None
     ∧ GetLastSentNonce samples.freshProxy (TypeUrl unknown) = ""
     ∧ respondToRequest unknown samples.fresh = (false, samples.fresh)).
Proof.
  simpl. repeat split; try discriminate; vm_compute; reflexivity.
Qed.

(** ** ACK *)

(** C1, as amended. A request with a known, non-sentinel type URI and a
    parseable version, with no error detail and a response nonce equal to
    the non-empty nonce last sent for that type URI, makes the handler set
    the last applied version to the parsed version. For a wildcard type URI
    (CDS or LDS) it does not reply, whatever the resource names, and changes
    nothing else. For another type URI it sets the subscribed resources to
    the request's resource names and replies exactly when these differ from
    the resources last sent; so an ACK that carries the resources last sent
    gets no reply and changes only the last applied version and the
    subscribed resources, which become the resources last sent. *)
Theorem ack_records_applied_version
    (s : ProxyState) (req : DiscoveryRequest)
    (typeURL : string) (requestVersion : N) :
  ValidURI !! TypeUrl req = Some typeURL →
  typeURL ≠ TypeEmptyURI →
  parseRequestVersion req = inl requestVersion →
  ErrorDetail req = None →
  GetLastSentNonce (proxy s) typeURL ≠ "" →
  ResponseNonce req = GetLastSentNonce (proxy s) typeURL →
  let requested : gset string := list_to_set (ResourceNames req) in
  let lastSent := GetLastResourcesSent (proxy s) typeURL in
  let acked := SetLastAppliedVersion typeURL requestVersion (proxy s) in
  let reply := fst (respondToRequest req s) in
  let s' := snd (respondToRequest req s) in
  GetLastAppliedVersion (proxy s') typeURL = requestVersion
  ∧ (typeURL = TypeCDS ∨ typeURL = TypeLDS →
       reply = false ∧ s' = {| proxy := acked; metrics := metrics s |})
  ∧ (typeURL ≠ TypeCDS ∧ typeURL ≠ TypeLDS →
       (reply = true ↔ requested ≠ lastSent)
       ∧ GetSubscribedResources (proxy s') typeURL = requested
       ∧ s' = {| proxy := SetSubscribedResources typeURL requested acked;
                 metrics := metrics s |})
  ∧ (requested = lastSent →
       reply = false
       ∧ (s' = {| proxy := acked; metrics := metrics s |}
          ∨ s' = {| proxy := SetSubscribedResources typeURL lastSent acked;
                    metrics := metrics s |})).
Proof.
  intros Hvalid Hsentinel Hparse Herr Hlast Hnonce requested lastSent acked
    reply s'.
  assert (respondToRequest req s
          = if IsWildcardTypeURI typeURL
            then (false, {| proxy := acked; metrics := metrics s |})
            else (negb (bool_decide (requested = lastSent)),
                  {| proxy := SetSubscribedResources typeURL requested acked;
                     metrics := metrics s |})) as Hrun.
  { rewrite (respondToRequest_past_checks _ _ _ _ Hvalid Hsentinel Hparse Herr).
    assert (ResponseNonce req ≠ "") as Hnonempty by (by rewrite Hnonce).
    rewrite (bool_decide_eq_false_2 _ Hnonempty), (bool_decide_eq_false_2 _ Hlast).
    rewrite bool_decide_eq_false_2 by (intros Hne; by apply Hne).
    by rewrite requested_names_set. }
  subst reply s'. rewrite Hrun. clear Hrun.
  destruct (IsWildcardTypeURI typeURL) eqn:Hwild; simpl.
  - apply wildcard_is_CDS_or_LDS in Hwild.
    split; [| split; [| split]].
    + unfold GetLastAppliedVersion; simpl. by rewrite lookup_insert_eq.
    + done.
    + intros [HnotCDS HnotLDS]. by destruct Hwild.
    + intros _. split; [reflexivity | by left].
  - assert (¬ (typeURL = TypeCDS ∨ typeURL = TypeLDS)) as Hnot.
    { intros Hw. apply wildcard_is_CDS_or_LDS in Hw. congruence. }
    split; [| split; [| split]].
    + unfold GetLastAppliedVersion; simpl. by rewrite lookup_insert_eq.
    + intros Hw. by destruct Hnot.
    + intros _. split; [| split].
      * rewrite negb_true_iff, bool_decide_eq_false. reflexivity.
      * unfold GetSubscribedResources; simpl. by rewrite lookup_insert_eq.
      * reflexivity.
    + intros Hsame. rewrite (bool_decide_eq_true_2 _ Hsame). simpl.
      split; [reflexivity |]. right. by rewrite Hsame.
Qed.

(** The proxy asks for routes [A] and [C] on the nonce of the response that
    sent it route [A]. *)
Lemma ack_records_applied_version_witness :
  let req := samples.mkRequest TypeRDS "4" "nr" ["A"; "C"] None in
  ResponseNonce req = GetLastSentNonce samples.servedProxy TypeRDS
  ∧ GetLastAppliedVersion (proxy (snd (respondToRequest req samples.served))) TypeRDS
    = 4%N.
Proof.
  simpl. split; [vm_compute; reflexivity |].
  apply (ack_records_applied_version samples.served
           (samples.mkRequest TypeRDS "4" "nr" ["A"; "C"] None) TypeRDS 4%N);
    [vm_compute; reflexivity | discriminate | vm_compute; reflexivity
     | reflexivity | vm_compute; discriminate | vm_compute; reflexivity].
Defined.

(** The claim C1 as it is stated fails on the proxy that was sent route [A]
    of its subscribed routes [A] and [B] under nonce [nr]. Both requests
    below carry that nonce and no error detail. The first asks for routes
    that differ from those last sent, but its version is no decimal number:
    the handler does not reply and records nothing. The second is an ACK
    that carries the resources last sent: the handler does not reply, but it
    changes the subscribed resources besides the last applied version.
    Last, as a function of any proxy state, the handler drops a request for
    the reserved empty type URI even when its nonce is the one held under
    that type URI. *)
Lemma ack_needs_version_and_updates_subscription :
  let badVersion := samples.mkRequest TypeRDS "four" "nr" ["A"; "C"] None in
  let ack := samples.mkRequest TypeRDS "4" "nr" ["A"] None in
  let sentinel := samples.mkRequest TypeEmptyURI "4" "n0" [] None in
  let p := samples.servedProxy in
  (ResponseNonce badVersion = GetLastSentNonce p TypeRDS
   ∧ GetLastSentNonce p TypeRDS ≠ ""
   ∧ ErrorDetail badVersion = None
   ∧ getRequestedResourceNamesSet badVersion ≠ GetLastResourcesSent p TypeRDS
   ∧ respondToRequest badVersion samples.served = (false, samples.served))
  ∧ (ResponseNonce ack = GetLastSentNonce p TypeRDS
     ∧ ErrorDetail ack = None
     ∧ getRequestedResourceNamesSet ack = GetLastResourcesSent p TypeRDS
     ∧ fst (respondToRequest ack samples.served) = false
     ∧ GetSubscribedResources p TypeRDS = {[ "A"; "B" ]}
     ∧ GetSubscribedResources
         (proxy (snd (respondToRequest ack samples.served))) TypeRDS = {[ "A" ]}
     ∧ GetSubscribedResources
         (proxy (snd (respondToRequest ack samples.served))) TypeRDS
       ≠ GetSubscribedResources p TypeRDS)
  ∧ (ResponseNonce sentinel = GetLastSentNonce samples.strayProxy TypeEmptyURI
     ∧ GetLastSentNonce samples.strayProxy TypeEmptyURI ≠ ""
     ∧ ErrorDetail sentinel = None
     ∧ respondToRequest sentinel samples.stray = (false, samples.stray)).
Proof.
  simpl. repeat split; try (vm_compute; reflexivity); vm_compute; discriminate.
Qed.

End ads_request.

(** * Properties of the stream: start-up and main loop *)

Module ads_stream.
Import envoy metricsstore ads.

Section WithCollaborators.
Context `{Collaborators}.

(** ** What the main loop can return *)

Lemma selectCase_outcome (ev : StreamEvent) (st : Proxy * Server) :
  fst (selectCase ev st) = Continue
  ∨ fst (selectCase ev st) = Return None
  ∨ fst (selectCase ev st) = Return (Some errGrpcClosed).
Proof.
  destruct st as [p srv].
  destruct ev; unfold selectCase, St.bind, St.ret, St.gets, onServer, AddJob,
    St.modify, callRespondToRequest; simpl; auto.
  - destruct (respondToRequest _ _) as [[|] ps]; simpl; auto.
  - destruct (shouldPushUpdate p); simpl; auto.
  - destruct (isCNforProxy p _); simpl; auto.
Qed.

Lemma mainLoop_result (events : list StreamEvent) (st : Proxy * Server) :
  (∃ p, fst (mainLoop events st) = Selecting p)
  ∨ fst (mainLoop events st) = Returned None
  ∨ fst (mainLoop events st) = Returned (Some errGrpcClosed).
Proof.
  revert st. induction events as [| ev events IH]; intros st.
  - left. exists (fst st). reflexivity.
  - simpl. unfold St.bind.
    pose proof (selectCase_outcome ev st) as Hout.
    destruct (selectCase ev st) as [outcome st']. simpl in Hout.
    destruct Hout as [-> | [-> | ->]]; [apply IH | right; by left | right; by right].
Qed.

Lemma serveProxy_result (p : Proxy) (events : list StreamEvent) (s : Server) :
  fst (serveProxy p events s) ≠ Returned (Some errTooManyConnections).
Proof.
  unfold serveProxy.
  pose proof (mainLoop_result events
                (p, withRegistry (registry.RegisterProxy p) s)) as Hres.
  destruct (mainLoop events _) as [result [p' s']]. simpl in Hres.
  destruct Hres as [[q ->] | [-> | ->]]; simpl; discriminate.
Qed.

Lemma serveProxy_waiting (p : Proxy) (s : Server) :
  serveProxy p [] s = (Selecting p, withRegistry (registry.RegisterProxy p) s).
Proof. reflexivity. Qed.

Lemma registered_after_RegisterProxy (p : Proxy) (s : Server) :
  connectionID p
  ∈ registry.connectedProxies
      (proxyRegistry (withRegistry (registry.RegisterProxy p) s)).
Proof. simpl. apply elem_of_union_l, elem_of_singleton. reflexivity. Qed.

(** ** Start-up *)

Lemma cap_check (s : Server) :
  bool_decide (cfg_MaxDataPlaneConnections s ≠ 0%Z)
  && bool_decide (registry.GetConnectedProxyCount (proxyRegistry s)
                  >= cfg_MaxDataPlaneConnections s)%Z
  = bool_decide (capReached s).
Proof.
  unfold capReached.
  destruct (bool_decide (cfg_MaxDataPlaneConnections s ≠ 0%Z)) eqn:Hmax;
    destruct (bool_decide (_ >= _)%Z) eqn:Hcount; simpl; symmetry;
    [apply bool_decide_eq_true | apply bool_decide_eq_false ..];
    try apply bool_decide_eq_true in Hmax;
    try apply bool_decide_eq_false in Hmax;
    try apply bool_decide_eq_true in Hcount;
    try apply bool_decide_eq_false in Hcount; tauto.
Qed.

(** The stream of a validated peer that passes the cap check and whose
    proxy is built: only a service-account mismatch stops it. *)
Lemma StreamAggregatedResources_built (ctx : PeerContext)
    (events : list StreamEvent) (s : Server)
    (cn serial : string) (p0 : Proxy) :
  ValidateClient ctx = inl (cn, serial) →
  ¬ capReached s →
  NewProxy cn serial (GetIPFromContext ctx) = inl p0 →
  StreamAggregatedResources ctx events s =
    match snd (recordPodMetadata p0) with
    | Some errServiceAccountMismatch =>
        (Returned (Some errServiceAccountMismatch),
         withMetrics ProxyConnectCount_Inc s)
    | _ => serveProxy (fst (recordPodMetadata p0)) events
             (withMetrics ProxyConnectCount_Inc s)
    end.
Proof.
  intros Hvalid Hcap Hnew. unfold StreamAggregatedResources.
  rewrite Hvalid, cap_check, (bool_decide_eq_false_2 _ Hcap), Hnew.
  destruct (recordPodMetadata p0) as [p [[] |]]; reflexivity.
Qed.

(** ** The cap on connections *)

(** C9, as amended. For a new stream whose peer was validated: when the cap
    is configured non-zero and the registry counts at least as many connected
    proxies, the stream ends with the too-many-connections error before the
    proxy is built or registered, the registry (with the rest of the server's
    state) being unchanged; when the cap is 0, no stream ends with that
    error, whatever the registry counts. *)
Theorem connection_cap_refuses_stream (ctx : PeerContext)
    (events : list StreamEvent) (s : Server) (cn serial : string) :
  ValidateClient ctx = inl (cn, serial) →
  (cfg_MaxDataPlaneConnections s ≠ 0%Z →
   (registry.GetConnectedProxyCount (proxyRegistry s)
    >= cfg_MaxDataPlaneConnections s)%Z →
   StreamAggregatedResources ctx events s
   = (Returned (Some errTooManyConnections), s))
  ∧ (cfg_MaxDataPlaneConnections s = 0%Z →
     fst (StreamAggregatedResources ctx events s)
     ≠ Returned (Some errTooManyConnections)).
Proof.
  intros Hvalid. split.
  - intros Hmax Hcount. unfold StreamAggregatedResources.
    rewrite Hvalid, cap_check.
    by rewrite (bool_decide_eq_true_2 (capReached s) (conj Hmax Hcount)).
  - intros Hzero. unfold StreamAggregatedResources.
    rewrite Hvalid, cap_check.
    rewrite bool_decide_eq_false_2 by (intros [Hmax _]; by apply Hmax).
    destruct (NewProxy cn serial (GetIPFromContext ctx)) as [p0 | err];
      [| discriminate].
    destruct (recordPodMetadata p0) as [p [[] |]];
      try discriminate; apply serveProxy_result.
Qed.

(** ** Pod metadata *)

(** C10. Once the proxy of a new stream is built, the result of
    [recordPodMetadata] ends the stream exactly when it is the
    service-account-mismatch error; with any other result the proxy is
    registered and the main loop runs. A gateway proxy is returned as it is,
    with no error, without any look-up; so is a proxy whose pod is not found,
    which is registered with no pod metadata recorded; an error in deriving
    the service identity from the certificate common name comes back to the
    caller, which ignores it. *)
Theorem only_service_account_mismatch_ends_stream (ctx : PeerContext)
    (events : list StreamEvent) (s : Server) (cn serial : string) (p0 : Proxy) :
  ValidateClient ctx = inl (cn, serial) →
  ¬ capReached s →
  NewProxy cn serial (GetIPFromContext ctx) = inl p0 →
  let p := fst (recordPodMetadata p0) in
  let err := snd (recordPodMetadata p0) in
  let connected := withMetrics ProxyConnectCount_Inc s in
  (err = Some errServiceAccountMismatch →
   StreamAggregatedResources ctx events s
   = (Returned (Some errServiceAccountMismatch), connected))
  ∧ (err ≠ Some errServiceAccountMismatch →
     StreamAggregatedResources ctx events s = serveProxy p events connected
     ∧ StreamAggregatedResources ctx [] s
       = (Selecting p, withRegistry (registry.RegisterProxy p) connected)
     ∧ connectionID p
       ∈ registry.connectedProxies
           (proxyRegistry (withRegistry (registry.RegisterProxy p) connected)))
  ∧ (Kind p0 = KindGateway → p = p0 ∧ err = None)
  ∧ (∀ msg, Kind p0 = KindSidecar →
       GetPodFromCertificate (GetCertificateCommonName p0) = inr msg →
       p = p0 ∧ err = None)
  ∧ (∀ pod msg, Kind p0 = KindSidecar →
       GetPodFromCertificate (GetCertificateCommonName p0) = inl pod →
       GetServiceIdentityFromProxyCertificate (GetCertificateCommonName p0)
       = inr msg →
       err = Some (errExternal msg) ∧ err ≠ Some errServiceAccountMismatch).
Proof.
  intros Hvalid Hcap Hnew p err connected.
  pose proof (StreamAggregatedResources_built ctx events s cn serial p0
                Hvalid Hcap Hnew) as Hrun.
  pose proof (StreamAggregatedResources_built ctx [] s cn serial p0
                Hvalid Hcap Hnew) as Hwait.
  fold p err connected in Hrun, Hwait.
  split; [| split; [| split; [| split]]].
  - intros Herr. by rewrite Hrun, Herr.
  - intros Herr. rewrite Hrun, Hwait.
    assert (∀ evs,
      match err with
      | Some errServiceAccountMismatch =>
          (Returned (Some errServiceAccountMismatch), connected)
      | _ => serveProxy p evs connected
      end = serveProxy p evs connected) as Hserve.
    { intros evs. destruct err as [[] |]; try reflexivity. by destruct Herr. }
    rewrite !Hserve. split; [reflexivity |].
    split; [apply serveProxy_waiting | apply registered_after_RegisterProxy].
  - intros Hgateway. subst p err. unfold recordPodMetadata.
    by rewrite Hgateway.
  - intros msg Hsidecar Hmiss. subst p err. unfold recordPodMetadata.
    by rewrite Hsidecar, Hmiss.
  - intros pod msg Hsidecar Hfound Hidentity. subst p err.
    unfold recordPodMetadata. rewrite Hsidecar, Hfound.
    destruct (controllerOf (pod_OwnerReferences pod)) as [workloadKind workloadName].
    change (GetCertificateCommonName (SetPodMetadata _ p0))
      with (GetCertificateCommonName p0).
    rewrite Hidentity. simpl. split; [reflexivity | discriminate].
Qed.

(** ** Broadcasts *)

(** C5. On a proxy-broadcast event, the main loop queues nothing when both
    the LDS and the CDS nonce last sent to the proxy are empty; otherwise it
    queues exactly one job, for the type URIs CDS, EDS, LDS and RDS, and SDS
    is not among them. In both cases the loop goes on. *)
Theorem broadcast_queues_one_full_update (p : Proxy) (s : Server) :
  let job := newJob [TypeCDS; TypeEDS; TypeLDS; TypeRDS] None in
  let after := selectCase broadcastUpdate (p, s) in
  (GetLastSentNonce p TypeLDS = "" ∧ GetLastSentNonce p TypeCDS = "" →
   after = (Continue, (p, s)))
  ∧ (¬ (GetLastSentNonce p TypeLDS = "" ∧ GetLastSentNonce p TypeCDS = "") →
     after = (Continue,
              (runJob job p, withWorkqueues (fun q => (q ++ [job])%list) s))
     ∧ workqueues (snd (snd after)) = (workqueues s ++ [job])%list)
  ∧ typeURIs job = [TypeCDS; TypeEDS; TypeLDS; TypeRDS]
  ∧ TypeSDS ∉ typeURIs job.
Proof.
  intros job after. subst after.
  unfold selectCase, St.bind, St.gets, St.ret, AddJob, St.modify,
    shouldPushUpdate. simpl.
  split; [| split; [| split]].
  - intros [HLDS HCDS].
    by rewrite (bool_decide_eq_true_2 _ HLDS), (bool_decide_eq_true_2 _ HCDS).
  - intros Hsent.
    destruct (bool_decide (GetLastSentNonce p TypeLDS = "")) eqn:HLDS;
      destruct (bool_decide (GetLastSentNonce p TypeCDS = "")) eqn:HCDS;
      simpl; try (split; reflexivity).
    apply bool_decide_eq_true in HLDS, HCDS. by destruct Hsent.
  - reflexivity.
  - simpl. rewrite !elem_of_cons, elem_of_nil.
    intros [Heq | [Heq | [Heq | [Heq | []]]]]; discriminate Heq.
Qed.

End WithCollaborators.

(** A validated peer connects while the cap of one connection is reached. *)
Lemma connection_cap_refuses_stream_witness :
  let ctx : @PeerContext samples.oneCluster := "bookbuyer.default.cluster.local" in
  capReached samples.fullServer
  ∧ @StreamAggregatedResources samples.oneCluster ctx [] samples.fullServer
    = (Returned (Some errTooManyConnections), samples.fullServer).
Proof.
  simpl. split.
  - split; [discriminate | vm_compute; discriminate].
  - apply (@connection_cap_refuses_stream samples.oneCluster
             "bookbuyer.default.cluster.local" [] samples.fullServer
             "bookbuyer.default.cluster.local" "1");
      [reflexivity | discriminate | vm_compute; discriminate].
Defined.

(** The claim C9 as it is stated speaks of every new stream. A peer without a
    validated certificate that connects while the cap is enabled and reached
    is refused for its missing identity, before the cap is looked at: the
    stream does not end with the too-many-connections error. *)
Lemma unauthenticated_stream_ends_before_cap_check :
  let ctx : @PeerContext samples.oneCluster := "" in
  capReached samples.fullServer
  ∧ @StreamAggregatedResources samples.oneCluster ctx [] samples.fullServer
    = (Returned
         (Some (errWrap (errExternal "no peer found")
            "Could not start Aggregated Discovery Service gRPC stream for newly connected Envoy proxy")),
       samples.fullServer)
  ∧ fst (@StreamAggregatedResources samples.oneCluster ctx [] samples.fullServer)
    ≠ Returned (Some errTooManyConnections).
Proof.
  simpl. split; [| split].
  - split; [discriminate | vm_compute; discriminate].
  - reflexivity.
  - discriminate.
Qed.

(** A sidecar connects whose pod is found but whose certificate common name
    yields no service identity: the error is ignored and the stream waits in
    its main loop, the proxy registered. *)
Lemma only_service_account_mismatch_ends_stream_witness :
  let ctx : @PeerContext samples.oneCluster := "bookbuyer.default" in
  let p0 := samples.builtProxy "bookbuyer.default" "1" KindSidecar in
  let p := fst (@recordPodMetadata samples.oneCluster p0) in
  snd (@recordPodMetadata samples.oneCluster p0)
  = Some (errExternal "invalid certificate common name")
  ∧ @StreamAggregatedResources samples.oneCluster ctx [] samples.idleServer
    = (Selecting p,
       withRegistry (registry.RegisterProxy p)
         (withMetrics ProxyConnectCount_Inc samples.idleServer)).
Proof.
  pose proof (@only_service_account_mismatch_ends_stream samples.oneCluster
                "bookbuyer.default" [] samples.idleServer
                "bookbuyer.default" "1"
                (samples.builtProxy "bookbuyer.default" "1" KindSidecar))
    as Hthm.
  cbv zeta in Hthm |- *.
  destruct Hthm as (_ & Hother & _);
    [reflexivity | intros [Hmax _]; by apply Hmax | reflexivity |].
  split; [reflexivity |].
  apply Hother. discriminate.
Defined.

End ads_stream.

(** * Properties of the dispatcher *)

Module catalog_dispatcher.
Import events metricsstore catalog.
Local Open Scope Z_scope.

(** ** [HasSuffix] decides "ends in" *)

Lemma substring_whole (s : string) : substring 0 (String.length s) s = s.
Proof. induction s as [| c s IH]; simpl; [reflexivity | by rewrite IH]. Qed.

Lemma append_cons (c : ascii) (a b : string) :
  String c a +:+ b = String c (a +:+ b).
Proof. reflexivity. Qed.

Lemma substring_skip_prefix (pre s : string) (n : nat) :
  substring (String.length pre) n (pre +:+ s) = substring 0 n s.
Proof.
  induction pre as [| c pre IH]; [reflexivity |].
  rewrite append_cons. simpl. exact IH.
Qed.

Lemma length_append (a b : string) :
  String.length (a +:+ b) = (String.length a + String.length b)%nat.
Proof.
  induction a as [| c a IH]; [reflexivity |].
  rewrite append_cons. simpl. by rewrite IH.
Qed.

Lemma split_at (s : string) (n : nat) :
  (n <= String.length s)%nat →
  s = substring 0 n s +:+ substring n (String.length s - n) s.
Proof.
  revert n. induction s as [| c s IH]; intros n Hn.
  - destruct n; reflexivity.
  - destruct n as [| n]; simpl.
    + by rewrite substring_whole.
    + rewrite append_cons. f_equal. apply IH. simpl in Hn. lia.
Qed.

Lemma HasSuffix_ends_in (s suffix : string) :
  gostrings.HasSuffix s suffix = true ↔ ∃ pre, s = pre +:+ suffix.
Proof.
  unfold gostrings.HasSuffix. rewrite andb_true_iff, Nat.leb_le, String.eqb_eq.
  split.
  - intros [Hlen Hsub].
    exists (substring 0 (String.length s - String.length suffix) s).
    pose proof (split_at s (String.length s - String.length suffix)) as Hsplit.
    replace (String.length s - (String.length s - String.length suffix))%nat
      with (String.length suffix) in Hsplit by lia.
    rewrite Hsub in Hsplit. apply Hsplit. lia.
  - intros [pre ->]. rewrite length_append. split; [lia |].
    replace (String.length pre + String.length suffix - String.length suffix)%nat
      with (String.length pre) by lia.
    by rewrite substring_skip_prefix, substring_whole.
Qed.

Section WithObjects.
Context {Obj : Type} `{EqDecision Obj}.

(** ** The delta filter *)

(** C8. A published message is a delta exactly when its topic string does not
    end in [updated] or its old and new objects are not structurally equal;
    and a message that is neither a delta nor a schedule-proxy-broadcast is
    ignored entirely: the iteration that receives it changes nothing. *)
Theorem delta_filter (psubMsg : PubSubMessage Obj) (now : Z)
    (st : Coalescing * Effects (Obj := Obj)) :
  (isDeltaUpdate psubMsg = true
   ↔ (¬ ∃ pre, announcements.String (AnnouncementType psubMsg) = pre +:+ "updated")
     ∨ OldObj psubMsg ≠ NewObj psubMsg)
  ∧ (isDeltaUpdate psubMsg = false →
     AnnouncementType psubMsg ≠ announcements.ScheduleProxyBroadcast →
     selectCase now (subChannel (IsPubSubMessage psubMsg)) st = Some st).
Proof.
  split.
  - unfold isDeltaUpdate, DeepEqual.
    rewrite negb_true_iff, andb_false_iff, bool_decide_eq_false.
    rewrite <- HasSuffix_ends_in, not_true_iff_false. reflexivity.
  - intros Hdelta Htopic. destruct st as [co fx]. unfold selectCase.
    by rewrite Hdelta, (bool_decide_eq_false_2 _ Htopic).
Qed.

(** ** Coalescing *)

Lemma qualifying_message_step (now : Z) (psubMsg : PubSubMessage Obj)
    (co : Coalescing) (fx : Effects (Obj := Obj)) :
  qualifies psubMsg = true →
  selectCase now (subChannel (IsPubSubMessage psubMsg)) (co, fx)
  = Some (if broadcastScheduled co
          then {| broadcastScheduled := true;
                  chanMovingDeadline := Some (now + maxGraceDeadlineTime);
                  chanMaxDeadline := chanMaxDeadline co |}
          else {| broadcastScheduled := true;
                  chanMovingDeadline := Some (now + maxGraceDeadlineTime);
                  chanMaxDeadline := Some (now + maxBroadcastDeadlineTime) |},
          fx).
Proof.
  intros Hq. unfold qualifies in Hq. unfold selectCase. rewrite Hq.
  destruct co as [[|] mv mx]; reflexivity.
Qed.

(** While a broadcast is scheduled, each further qualifying message moves the
    grace deadline and leaves the hard deadline where it is. *)
Lemma scheduled_window_slides (msgs : list (Z * PubSubMessage Obj))
    (tprev : Z) (mx : option Z) (fx : Effects (Obj := Obj)) :
  Forall (fun tm => qualifies (snd tm) = true) msgs →
  dispatcherFrom (arrivals msgs)
    ({| broadcastScheduled := true;
        chanMovingDeadline := Some (tprev + maxGraceDeadlineTime);
        chanMaxDeadline := mx |}, fx)
  = Some ({| broadcastScheduled := true;
             chanMovingDeadline :=
               Some (lastArrival tprev msgs + maxGraceDeadlineTime);
             chanMaxDeadline := mx |}, fx).
Proof.
  intros Hall. revert tprev.
  induction Hall as [| [t m] msgs Hq Hall IH]; intros tprev; [reflexivity |].
  cbn [arrivals map dispatcherFrom fst snd].
  rewrite (qualifying_message_step _ _ _ _ Hq). cbn [broadcastScheduled chanMaxDeadline].
  apply IH.
Qed.

Lemma dispatcherFrom_app (trace1 trace2 : list (Z * SelectCase (Obj := Obj)))
    (st st' : Coalescing * Effects (Obj := Obj)) :
  dispatcherFrom trace1 st = Some st' →
  dispatcherFrom (trace1 ++ trace2) st = dispatcherFrom trace2 st'.
Proof.
  revert st. induction trace1 as [| [now c] trace1 IH]; intros st; simpl.
  - by intros [= ->].
  - destruct (selectCase now c st) as [st1 |]; [apply IH | discriminate].
Qed.

(** C4. From the unscheduled state, the first qualifying message arms the
    grace deadline, 3 s after it, and the hard deadline, 15 s after it, and
    marks a broadcast scheduled. Each further qualifying message re-arms the
    grace deadline, 3 s after itself, and leaves the hard deadline at its first
    fire time. When either timer fires, one proxy-broadcast is published, the
    counter goes up by one, both timers are cleared and the state is
    unscheduled again, so that no timer is left to fire: the qualifying
    messages of one scheduling window, however many, yield exactly one
    broadcast. *)
Theorem one_broadcast_per_window (fx : Effects (Obj := Obj))
    (t0 : Z) (m0 : PubSubMessage Obj) (more : list (Z * PubSubMessage Obj))
    (fire : SelectCase (Obj := Obj)) (tf : Z) :
  qualifies m0 = true →
  Forall (fun tm => qualifies (snd tm) = true) more →
  let grace := lastArrival t0 more + 3 * Second in
  let hard := t0 + 15 * Second in
  (fire = movingDeadline ∧ grace <= tf) ∨ (fire = maxDeadline ∧ hard <= tf) →
  let window := arrivals ((t0, m0) :: more) in
  dispatcher (arrivals [(t0, m0)]) fx
  = Some ({| broadcastScheduled := true;
             chanMovingDeadline := Some (t0 + 3 * Second);
             chanMaxDeadline := Some (t0 + 15 * Second) |}, fx)
  ∧ dispatcher window fx
    = Some ({| broadcastScheduled := true;
               chanMovingDeadline := Some grace;
               chanMaxDeadline := Some hard |}, fx)
  ∧ dispatcher (window ++ [(tf, fire)]) fx = Some (unscheduled, broadcast fx)
  ∧ published (broadcast fx)
    = (published fx
       ++ [ {| AnnouncementType := announcements.ProxyBroadcast;
               OldObj := None; NewObj := None |} ])%list
  ∧ ProxyBroadcastEventCount (metrics (broadcast fx))
    = (ProxyBroadcastEventCount (metrics fx) + 1)%N
  ∧ ∀ t, selectCase t movingDeadline (unscheduled, broadcast fx) = None
         ∧ selectCase t maxDeadline (unscheduled, broadcast fx) = None.
Proof.
  intros Hfirst Hmore grace hard Hfire window.
  assert (dispatcher window fx
          = Some ({| broadcastScheduled := true;
                     chanMovingDeadline := Some grace;
                     chanMaxDeadline := Some hard |}, fx)) as Hwindow.
  { unfold dispatcher, window. cbn [arrivals map dispatcherFrom fst snd].
    rewrite (qualifying_message_step _ _ _ _ Hfirst). cbn [unscheduled broadcastScheduled].
    apply (scheduled_window_slides more t0 _ fx Hmore). }
  split; [| split; [exact Hwindow | split; [| split; [| split]]]].
  - unfold dispatcher. cbn [arrivals map dispatcherFrom fst snd].
    by rewrite (qualifying_message_step _ _ _ _ Hfirst).
  - unfold dispatcher in *. rewrite (dispatcherFrom_app _ _ _ _ Hwindow).
    cbn [dispatcherFrom]. unfold selectCase, ready.
    destruct Hfire as [[-> Hdue] | [-> Hdue]];
      cbn [chanMovingDeadline chanMaxDeadline];
      by rewrite (bool_decide_eq_true_2 _ Hdue).
  - reflexivity.
  - reflexivity.
  - intros t. split; reflexivity.
Qed.

End WithObjects.

(** Three qualifying messages arrive at 0 s, 1 s and 2 s (a pod added, a pod
    changed, a broadcast requested by another module); the grace deadline
    fires at 5 s. *)
Lemma one_broadcast_per_window_witness :
  let window :=
    arrivals [(0, samples.podAdded); (1 * Second, samples.podChanged);
              (2 * Second, samples.broadcastRequested)] in
  qualifies samples.podAdded = true
  ∧ dispatcher (window ++ [(5 * Second, movingDeadline)]) samples.nothingPublished
    = Some (unscheduled, broadcast samples.nothingPublished).
Proof.
  cbv zeta. split; [reflexivity |].
  apply (one_broadcast_per_window samples.nothingPublished 0 samples.podAdded
           [(1 * Second, samples.podChanged);
            (2 * Second, samples.broadcastRequested)]
           movingDeadline (5 * Second)).
  - reflexivity.
  - repeat constructor.
  - left. split; [reflexivity | vm_compute; discriminate].
Defined.

End catalog_dispatcher.

(** * Further properties of the request state machine *)

Module ads_request_more.
Import envoy metricsstore ads ads_request.

(** Either the request is dropped by one of the four checks that come first,
    or it reaches the nonce logic with a known type URI and a parsed
    version. *)
Lemma respondToRequest_cases (req : DiscoveryRequest) (s : ProxyState) :
  (respondToRequest req s = (false, s)
   ∧ (ValidURI !! TypeUrl req = None
      ∨ ValidURI !! TypeUrl req = Some TypeEmptyURI
      ∨ (∃ err, parseRequestVersion req = inr err)
      ∨ ErrorDetail req ≠ None))
  ∨ (∃ requestVersion,
       ValidURI !! TypeUrl req = Some (TypeUrl req)
       ∧ TypeUrl req ≠ TypeEmptyURI
       ∧ parseRequestVersion req = inl requestVersion
       ∧ ErrorDetail req = None).
Proof.
  destruct (ValidURI !! TypeUrl req) as [typeURL |] eqn:Hvalid;
    [| left; split; [unfold respondToRequest; by rewrite Hvalid | by left]].
  pose proof (ValidURI_keyed_by_itself _ _ Hvalid) as ->.
  destruct (decide (TypeUrl req = TypeEmptyURI)) as [Hsentinel | Hsentinel].
  { left. split; [| right; left; congruence].
    unfold respondToRequest. rewrite Hvalid.
    by rewrite (bool_decide_eq_true_2 _ Hsentinel). }
  destruct (parseRequestVersion req) as [requestVersion | err] eqn:Hparse.
  2:{ left. split; [| right; right; left; by exists err].
      unfold respondToRequest. rewrite Hvalid, Hparse.
      by rewrite (bool_decide_eq_false_2 _ Hsentinel). }
  destruct (ErrorDetail req) as [detail |] eqn:Herr.
  { left. split; [| by repeat right].
    unfold respondToRequest. rewrite Hvalid, Hparse, Herr.
    by rewrite (bool_decide_eq_false_2 _ Hsentinel). }
  right. exists requestVersion. repeat split; assumption.
Qed.

(** ** When the handler replies *)

(** X1. The handler replies exactly when the request has a known, non-sentinel
    type URI, a version that parses and no error detail, and is a first
    request (empty nonce), or reaches a proxy that was sent no nonce for the
    type URI, or carries the nonce last sent for a type URI that is not
    wildcard together with resource names that differ from those last
    sent. *)
Theorem reply_exactly_when (s : ProxyState) (req : DiscoveryRequest) :
  fst (respondToRequest req s) = true
  ↔ ∃ typeURL requestVersion,
      ValidURI !! TypeUrl req = Some typeURL
      ∧ typeURL ≠ TypeEmptyURI
      ∧ parseRequestVersion req = inl requestVersion
      ∧ ErrorDetail req = None
      ∧ (ResponseNonce req = ""
         ∨ GetLastSentNonce (proxy s) typeURL = ""
         ∨ (ResponseNonce req = GetLastSentNonce (proxy s) typeURL
            ∧ IsWildcardTypeURI typeURL = false
            ∧ getRequestedResourceNamesSet req
              ≠ GetLastResourcesSent (proxy s) typeURL)).
Proof.
  split.
  - intros Hreply.
    destruct (respondToRequest_cases req s)
      as [[Hdrop _] | (requestVersion & Hvalid & Hsentinel & Hparse & Herr)];
      [rewrite Hdrop in Hreply; discriminate |].
    exists (TypeUrl req), requestVersion. repeat (split; [assumption |]).
    rewrite (respondToRequest_past_checks _ _ _ _ Hvalid Hsentinel Hparse Herr)
      in Hreply.
    clear Hvalid Hsentinel Hparse Herr.
    destruct (decide (ResponseNonce req = "")) as [Hfirst | Hfirst];
      [by left |].
    destruct (decide (GetLastSentNonce (proxy s) (TypeUrl req) = ""))
      as [Hlast | Hlast]; [right; by left |].
    rewrite (bool_decide_eq_false_2 _ Hfirst), (bool_decide_eq_false_2 _ Hlast)
      in Hreply.
    destruct (decide (ResponseNonce req = GetLastSentNonce (proxy s) (TypeUrl req)))
      as [Hnonce | Hnonce];
      [| rewrite (bool_decide_eq_true_2 _ Hnonce) in Hreply; discriminate].
    rewrite bool_decide_eq_false_2 in Hreply by (intros Hne; by apply Hne).
    destruct (IsWildcardTypeURI (TypeUrl req)); [discriminate |].
    simpl in Hreply. apply negb_true_iff, bool_decide_eq_false in Hreply.
    right; right. done.
  - intros (typeURL & requestVersion & Hvalid & Hsentinel & Hparse & Herr & Hcase).
    rewrite (respondToRequest_past_checks _ _ _ _ Hvalid Hsentinel Hparse Herr).
    clear Hvalid Hsentinel Hparse Herr.
    destruct (bool_decide (ResponseNonce req = "")) eqn:Hfirst; [reflexivity |].
    destruct (bool_decide (GetLastSentNonce (proxy s) typeURL = "")) eqn:Hlast;
      [reflexivity |].
    apply bool_decide_eq_false in Hfirst, Hlast.
    destruct Hcase as [Hempty | [Hempty | (Hnonce & Hwild & Hdiffer)]];
      [done | done |].
    rewrite bool_decide_eq_false_2 by (intros Hne; by apply Hne).
    rewrite Hwild. simpl. by rewrite (bool_decide_eq_false_2 _ Hdiffer).
Qed.

(** ** What the handler never touches *)

(** X2. Whatever the request, the handler leaves alone the nonces last sent and
    the resources last sent of every type URI, the identity, kind and pod
    metadata of the proxy, and every entry of a type URI other than the
    request's; of the metrics it changes only the reconnect count, by at
    most one. In particular a request never changes whether the proxy is
    eligible for a broadcast push. *)
Theorem handler_frame (s : ProxyState) (req : DiscoveryRequest) :
  let p := proxy s in
  let p' := proxy (snd (respondToRequest req s)) in
  let m := metrics s in
  let m' := metrics (snd (respondToRequest req s)) in
  lastNonce p' = lastNonce p
  ∧ lastxDSResourcesSent p' = lastxDSResourcesSent p
  ∧ connectionID p' = connectionID p
  ∧ certificateCommonName p' = certificateCommonName p
  ∧ certificateSerialNumber p' = certificateSerialNumber p
  ∧ kind p' = kind p
  ∧ podMetadata p' = podMetadata p
  ∧ (∀ t, t ≠ TypeUrl req →
       lastSentVersion p' !! t = lastSentVersion p !! t
       ∧ lastAppliedVersion p' !! t = lastAppliedVersion p !! t
       ∧ subscribedResources p' !! t = subscribedResources p !! t)
  ∧ ProxyConnectCount m' = ProxyConnectCount m
  ∧ ProxyBroadcastEventCount m' = ProxyBroadcastEventCount m
  ∧ (ProxyReconnectCount m' = ProxyReconnectCount m
     ∨ ProxyReconnectCount m' = (ProxyReconnectCount m + 1)%N)
  ∧ shouldPushUpdate p' = shouldPushUpdate p.
Proof.
  cbv zeta.
  destruct (respondToRequest_cases req s)
    as [[Hdrop _] | (requestVersion & Hvalid & Hsentinel & Hparse & Herr)].
  { rewrite Hdrop. simpl. repeat split; auto. }
  rewrite (respondToRequest_past_checks _ _ _ _ Hvalid Hsentinel Hparse Herr).
  clear Hvalid Hsentinel Hparse Herr.
  assert (∀ (A : Type) (v : A) (mp : gmap string A) (t : string),
            t ≠ TypeUrl req → <[TypeUrl req := v]> mp !! t = mp !! t) as Hother.
  { intros A v mp t Hne. by apply lookup_insert_ne. }
  repeat case_bool_decide; try destruct (IsWildcardTypeURI (TypeUrl req));
    simpl; repeat split; auto; intros t Hne; rewrite ?Hother by done; done.
Qed.

(** ** Replaying a request *)

(** X3. A request handled a second time, before any response is sent, gets the
    same decision, and the proxy stays as the first handling left it. *)
Theorem replayed_request_is_idempotent (s : ProxyState) (req : DiscoveryRequest) :
  let once := respondToRequest req s in
  let twice := respondToRequest req (snd once) in
  fst twice = fst once ∧ proxy (snd twice) = proxy (snd once).
Proof.
  cbv zeta.
  destruct (respondToRequest_cases req s)
    as [[Hdrop _] | (requestVersion & Hvalid & Hsentinel & Hparse & Herr)].
  { rewrite Hdrop. simpl. rewrite Hdrop. split; reflexivity. }
  rewrite (respondToRequest_past_checks req s _ _ Hvalid Hsentinel Hparse Herr).
  rewrite (respondToRequest_past_checks req _ _ _ Hvalid Hsentinel Hparse Herr).
  clear Hvalid Hsentinel Hparse Herr. destruct s as [p m].
  destruct (bool_decide (ResponseNonce req = "")); simpl.
  { unfold SetSubscribedResources; simpl. by rewrite insert_insert_eq. }
  destruct (bool_decide (GetLastSentNonce p (TypeUrl req) = "")) eqn:Hlast; simpl.
  { unfold GetLastSentNonce in *; simpl. rewrite Hlast. simpl.
    unfold SetSubscribedResources, SetLastAppliedVersion, SetLastSentVersion;
      simpl. by rewrite !insert_insert_eq. }
  destruct (bool_decide (ResponseNonce req ≠ GetLastSentNonce p (TypeUrl req)))
    eqn:Hstale; simpl.
  { by rewrite Hlast, Hstale. }
  destruct (IsWildcardTypeURI (TypeUrl req)) eqn:Hwild; simpl.
  { unfold GetLastSentNonce in *; simpl. rewrite Hlast, Hstale. simpl.
    unfold SetLastAppliedVersion; simpl. by rewrite insert_insert_eq. }
  unfold GetLastSentNonce, GetLastResourcesSent in *; simpl.
  rewrite Hlast, Hstale. simpl.
  unfold SetSubscribedResources, SetLastAppliedVersion; simpl.
  by rewrite !insert_insert_eq.
Qed.

End ads_request_more.

(** * Properties of the helpers of [stream.go] *)

Module ads_helpers.
Import envoy metricsstore ads ads_request.

(** ** Versions *)

Lemma decimalFrom_ge (s : string) (n v : N) :
  strconv.decimalFrom n s = Some v → (n <= v)%N.
Proof.
  revert n. induction s as [| c rest IH]; intros n; simpl.
  - intros [= ->]. lia.
  - destruct (strconv.digit c) as [d |]; [| discriminate].
    intros Hrest. specialize (IH _ Hrest). lia.
Qed.

(** The overflow checks made digit by digit accept exactly the digit strings
    whose number fits 64 bits. *)
Lemma parseDigits_decimal (s : string) (n v : N) :
  strconv.parseDigits s n = inl v
  ↔ strconv.decimalFrom n s = Some v ∧ (v <= strconv.maxUint64)%N ∨
    (s = EmptyString ∧ v = n ∧ (strconv.maxUint64 < n)%N).
Proof.
  revert n. induction s as [| c rest IH]; intros n; simpl.
  - split.
    + intros [= ->]. destruct (N.le_gt_cases v strconv.maxUint64); auto.
    + intros [[[= ->] _] | (_ & -> & _)]; reflexivity.
  - destruct (strconv.digit c) as [d |];
      [| split; [discriminate | intros [[? _] | [? _]]; discriminate]].
    destruct (strconv.cutoff <=? n)%N eqn:Hcut.
    { apply N.leb_le in Hcut. split; [discriminate |].
      intros [[Hval Hmax] | [? _]]; [| discriminate].
      apply decimalFrom_ge in Hval.
      unfold strconv.cutoff, strconv.maxUint64 in *.
      change (18446744073709551615 / 10 + 1)%N with 1844674407370955162%N in Hcut.
      lia. }
    destruct (strconv.maxUint64 <? n * 10 + d)%N eqn:Hover.
    { apply N.ltb_lt in Hover. split; [discriminate |].
      intros [[Hval Hmax] | [? _]]; [| discriminate].
      apply decimalFrom_ge in Hval. lia. }
    apply N.ltb_ge in Hover. rewrite IH. split.
    + intros [Hok | (_ & -> & Hbig)]; [by left | lia].
    + intros [Hok | [? _]]; [by left | discriminate].
Qed.

(** X4. The version of a request parses exactly when its [version_info] is a
    (possibly empty) string of decimal digits that denotes a number of at
    most 2^64 - 1, and it parses as that number. *)
Theorem version_parses_as_decimal (req : DiscoveryRequest) (v : N) :
  parseRequestVersion req = inl v
  ↔ strconv.decimal (VersionInfo req) = Some v ∧ (v <= 18446744073709551615)%N.
Proof.
  unfold parseRequestVersion, strconv.decimal, strconv.ParseUint.
  destruct (VersionInfo req) as [| c rest] eqn:Hv.
  - rewrite bool_decide_eq_true_2 by reflexivity. simpl. split.
    + intros [= <-]. split; [reflexivity | lia].
    + intros [[= <-] _]. reflexivity.
  - rewrite bool_decide_eq_false_2 by discriminate.
    rewrite parseDigits_decimal. split.
    + intros [Hok | [? _]]; [exact Hok | discriminate].
    + intros Hok. left. exact Hok.
Qed.

(** ** Sorting *)

Lemma leb_trans (a b c : string) :
  String.leb a b = true → String.leb b c = true → String.leb a c = true.
Proof.
  unfold String.leb. revert b c.
  induction a as [| x a IH]; intros [| y b] [| z c]; simpl; try done.
  unfold Ascii.compare.
  destruct (N.compare_spec (N_of_ascii x) (N_of_ascii y));
    destruct (N.compare_spec (N_of_ascii y) (N_of_ascii z));
    destruct (N.compare_spec (N_of_ascii x) (N_of_ascii z));
    try done; try lia.
  apply IH.
Qed.

Lemma leb_Transitive : Transitive (fun a b => String.leb a b = true).
Proof. intros a b c. apply leb_trans. Qed.

Lemma leb_AntiSymm : AntiSymm (=) (fun a b => String.leb a b = true).
Proof. intros a b. apply String.leb_antisym. Qed.

Lemma insert_Permutation (x : string) (l : list string) :
  gosort.insert x l ≡ₚ x :: l.
Proof.
  induction l as [| y l IH]; simpl; [done |].
  destruct (String.leb x y); [done |].
  rewrite IH. apply Permutation_swap.
Qed.

Lemma Strings_Permutation (l : list string) : gosort.Strings l ≡ₚ l.
Proof.
  induction l as [| x l IH]; simpl; [done |].
  by rewrite insert_Permutation, IH.
Qed.

Lemma insert_Sorted (x : string) (l : list string) :
  Sorted (fun a b => String.leb a b = true) l →
  Sorted (fun a b => String.leb a b = true) (gosort.insert x l).
Proof.
  induction 1 as [| y l Hsorted IH Hhd]; simpl.
  - repeat constructor.
  - destruct (String.leb x y) eqn:Hxy.
    + constructor; [by constructor | by constructor].
    + constructor; [exact IH |].
      assert (String.leb y x = true) as Hyx
        by (destruct (String.leb_total x y); congruence).
      destruct Hhd as [| z l' Hyz]; simpl; [by constructor |].
      destruct (String.leb x z); by constructor.
Qed.

Lemma Strings_Sorted (l : list string) :
  Sorted (fun a b => String.leb a b = true) (gosort.Strings l).
Proof.
  induction l as [| x l IH]; simpl; [constructor | by apply insert_Sorted].
Qed.

(** ** Resource names, from slice to set and back *)

Lemma appended_strings (iterated : list Element) (acc : list string) :
  foldl (fun resourceSlice elem =>
           match elem with
           | StringElement resString => (resourceSlice ++ [resString])%list
           | IntElement _ => resourceSlice
           end) acc iterated
  = (acc ++ omap (fun elem => match elem with
                              | StringElement resString => Some resString
                              | IntElement _ => None
                              end) iterated)%list.
Proof.
  revert acc. induction iterated as [| [x | n] iterated IH]; intros acc; simpl.
  - by rewrite app_nil_r.
  - by rewrite IH, <- app_assoc.
  - apply IH.
Qed.

Lemma slice_Permutation (iterated : list Element) :
  getResourceSliceFromMapset iterated
  ≡ₚ omap (fun elem => match elem with
                       | StringElement resString => Some resString
                       | IntElement _ => None
                       end) iterated.
Proof.
  unfold getResourceSliceFromMapset.
  by rewrite Strings_Permutation, appended_strings.
Qed.

(** X5. The slice built from a set holds exactly the strings of the set, in
    increasing order, whatever else the set holds. *)
Theorem resource_slice_is_sorted_strings (iterated : list Element) :
  let slice := getResourceSliceFromMapset iterated in
  Sorted (fun a b => String.leb a b = true) slice
  ∧ (∀ x, x ∈ slice ↔ StringElement x ∈ iterated)
  ∧ length slice <= length iterated.
Proof.
  cbv zeta. split; [apply Strings_Sorted | split].
  - intros x. rewrite slice_Permutation, list_elem_of_omap. split.
    + intros ([y | n] & Hin & Hy); [| discriminate]. by injection Hy as ->.
    + intros Hin. by exists (StringElement x).
  - rewrite slice_Permutation.
    induction iterated as [| [x | n] iterated IH]; [done | |];
      cbn [omap list_omap length] in *; lia.
Qed.

(** X6. The order in which the iterator of the set delivers the elements does
    not show in the slice. *)
Theorem resource_slice_ignores_iteration_order (iterated1 iterated2 : list Element) :
  iterated1 ≡ₚ iterated2 →
  getResourceSliceFromMapset iterated1 = getResourceSliceFromMapset iterated2.
Proof.
  intros Hperm.
  pose proof leb_Transitive as Htrans. pose proof leb_AntiSymm as Hanti.
  apply (Sorted_unique (fun a b => String.leb a b = true));
    [apply Strings_Sorted | apply Strings_Sorted |].
  rewrite !slice_Permutation. by rewrite Hperm.
Qed.

Lemma resource_slice_ignores_iteration_order_witness :
  let iterated :=
    [StringElement "b"; IntElement 7; StringElement "a"; StringElement "c"] in
  getResourceSliceFromMapset (reverse iterated)
  = getResourceSliceFromMapset iterated.
Proof.
  cbv zeta. apply resource_slice_ignores_iteration_order.
  apply reverse_Permutation.
Defined.

(** X7. The resource names of a request, made a set by
    [getRequestedResourceNamesSet] and a slice again by
    [getResourceSliceFromMapset]: the slice holds each requested name once,
    in increasing order, and makes the same set. *)
Theorem requested_names_round_trip (req : DiscoveryRequest)
    (iterated : list Element) :
  iterated ≡ₚ StringElement <$> elements (getRequestedResourceNamesSet req) →
  let slice := getResourceSliceFromMapset iterated in
  (∀ x, x ∈ slice ↔ x ∈ ResourceNames req)
  ∧ NoDup slice
  ∧ Sorted (fun a b => String.leb a b = true) slice
  ∧ list_to_set slice = getRequestedResourceNamesSet req.
Proof.
  intros Hperm. cbv zeta.
  assert (getResourceSliceFromMapset iterated
          ≡ₚ elements (getRequestedResourceNamesSet req)) as Hslice.
  { rewrite slice_Permutation, Hperm.
    generalize (elements (getRequestedResourceNamesSet req)).
    intros l. induction l as [| x l IH]; simpl; [done | by rewrite IH]. }
  split; [| split; [| split]].
  - intros x. rewrite Hslice, elem_of_elements, requested_names_set.
    apply elem_of_list_to_set.
  - rewrite Hslice. apply NoDup_elements.
  - apply Strings_Sorted.
  - apply set_eq. intros x.
    by rewrite elem_of_list_to_set, Hslice, elem_of_elements.
Qed.

Lemma requested_names_round_trip_witness :
  let req := samples.mkRequest TypeRDS "4" "nr" ["b"; "a"; "b"] None in
  let slice :=
    getResourceSliceFromMapset
      (StringElement <$> elements (getRequestedResourceNamesSet req)) in
  NoDup slice ∧ list_to_set slice = getRequestedResourceNamesSet req.
Proof.
  cbv zeta.
  pose proof (requested_names_round_trip
                (samples.mkRequest TypeRDS "4" "nr" ["b"; "a"; "b"] None)
                _ (Permutation_refl _)) as (_ & Hnodup & _ & Hset).
  exact (conj Hnodup Hset).
Defined.

End ads_helpers.

(** * Further properties of the stream *)

Module ads_stream_more.
Import envoy metricsstore ads ads_request ads_request_more ads_stream.

(** ** Components of a common name *)

Lemma length_Split (s : string) (sep : ascii) :
  length (gostrings.Split s sep) = S (gostrings.Count s sep).
Proof.
  induction s as [| c rest IH]; simpl; [reflexivity |].
  destruct (Ascii.eqb c sep); simpl; [by rewrite IH |].
  destruct (gostrings.Split rest sep) as [| chunk chunks]; [discriminate |].
  exact IH.
Qed.

Lemma Split_first_component (name rest : string) (sep : ascii) :
  gostrings.Count name sep = 0 →
  gostrings.Split (name +:+ String sep rest) sep
  = name :: gostrings.Split rest sep.
Proof.
  induction name as [| c name IH]; intros Hcount.
  - simpl. by rewrite Ascii.eqb_refl.
  - simpl in Hcount. change (String c name +:+ String sep rest)
      with (String c (name +:+ String sep rest)). simpl.
    destruct (Ascii.eqb c sep); [discriminate |].
    by rewrite IH.
Qed.

Section WithCollaborators.
Context `{Collaborators}.

(** ** Whose certificate was rotated *)

(** X8. A certificate common name with fewer than two dots, that is with fewer
    than three components, is never taken for the proxy's. *)
Theorem short_common_name_never_matches (proxy : Proxy) (cn : string) :
  gostrings.Count cn DomainDelimiter < 2 →
  isCNforProxy proxy cn = false.
Proof.
  intros Hdots. unfold isCNforProxy.
  destruct (GetServiceIdentityFromProxyCertificate _); [| reflexivity].
  rewrite length_Split.
  destruct (Nat.ltb_spec (S (gostrings.Count cn DomainDelimiter)) 3);
    [reflexivity | lia].
Qed.

(** X9. Of the rotated certificate's common name only the first two components
    count, read as service account and namespace: the common name is taken
    for the proxy's exactly when these two make the service account of the
    identity derived from the proxy's own certificate; what follows the
    second dot is not looked at, and no identity means no match. *)
Theorem common_name_matches_by_first_two_components
    (proxy : Proxy) (name namespace rest : string) :
  gostrings.Count name DomainDelimiter = 0 →
  gostrings.Count namespace DomainDelimiter = 0 →
  isCNforProxy proxy (name +:+ "." +:+ namespace +:+ "." +:+ rest)
  = match GetServiceIdentityFromProxyCertificate (GetCertificateCommonName proxy) with
    | inl proxyIdentity =>
        bool_decide ({| identity.Namespace := namespace; identity.Name := name |}
                     = ToK8sServiceAccount proxyIdentity)
    | inr _ => false
    end.
Proof.
  intros Hname Hnamespace. unfold isCNforProxy.
  destruct (GetServiceIdentityFromProxyCertificate _); [| reflexivity].
  change ("." +:+ namespace +:+ "." +:+ rest)
    with (String DomainDelimiter (namespace +:+ String DomainDelimiter rest)).
  rewrite (Split_first_component _ _ _ Hname).
  rewrite (Split_first_component _ _ _ Hnamespace).
  pose proof (length_Split rest DomainDelimiter) as Hlen.
  cbn [length]. rewrite Hlen. reflexivity.
Qed.

End WithCollaborators.

Lemma short_common_name_never_matches_witness :
  @isCNforProxy samples.oneCluster samples.freshProxy "bookbuyer.default" = false.
Proof.
  apply (@short_common_name_never_matches samples.oneCluster).
  vm_compute. lia.
Defined.

Lemma common_name_matches_by_first_two_components_witness :
  @isCNforProxy samples.oneCluster samples.freshProxy
    ("bookbuyer" +:+ "." +:+ "default" +:+ "." +:+ "other.domain")
  = true.
Proof.
  rewrite (@common_name_matches_by_first_two_components samples.oneCluster
             samples.freshProxy "bookbuyer" "default" "other.domain");
    reflexivity.
Defined.

Section MainLoop.
Context `{Collaborators}.

(** ** The jobs a stream queues *)

Lemma known_type_URIs :
  Forall (fun t => ValidURI !! t = Some t ∧ t ≠ TypeEmptyURI)
         [TypeCDS; TypeEDS; TypeLDS; TypeRDS; TypeSDS].
Proof. repeat constructor; (vm_compute; reflexivity) || discriminate. Qed.

Lemma selectCase_queues (ev : StreamEvent) (p : Proxy) (s : Server) :
  ∃ jobs,
    workqueues (snd (snd (selectCase ev (p, s)))) = (workqueues s ++ jobs)%list
    ∧ length jobs <= 1
    ∧ Forall (fun job =>
                Forall (fun t => ValidURI !! t = Some t ∧ t ≠ TypeEmptyURI)
                       (typeURIs job)) jobs.
Proof.
  pose proof known_type_URIs as Hknown.
  rewrite !Forall_cons in Hknown.
  destruct Hknown as (HCDS & HEDS & HLDS & HRDS & HSDS & _).
  destruct ev as [| | req | | | cn];
    unfold selectCase, St.bind, St.ret, St.gets, onServer, AddJob, St.modify,
      callRespondToRequest; simpl;
    try (exists []; rewrite app_nil_r; repeat split; [simpl; lia | constructor]).
  - destruct (respondToRequest req _) as [[|] ps] eqn:Hrespond; simpl.
    + exists [newJob [TypeUrl req] (Some req)]. repeat split; [simpl; lia |].
      repeat constructor; simpl;
        destruct (respondToRequest_cases req
                    {| proxy := p; metrics := DefaultMetricsStore s |})
          as [[Hdrop _] | (v & Hvalid & Hsentinel & _)];
        try (rewrite Hdrop in Hrespond; discriminate); assumption.
    + exists []. rewrite app_nil_r. repeat split; [simpl; lia | constructor].
  - destruct (shouldPushUpdate p); simpl.
    + exists [newJob [TypeCDS; TypeEDS; TypeLDS; TypeRDS] None].
      repeat split; [simpl; lia |]. repeat constructor; simpl; tauto.
    + exists []. rewrite app_nil_r. repeat split; [simpl; lia | constructor].
  - destruct (isCNforProxy p cn); simpl.
    + exists [newJob [TypeSDS] None].
      repeat split; [simpl; lia |]. repeat constructor; simpl; tauto.
    + exists []. rewrite app_nil_r. repeat split; [simpl; lia | constructor].
Qed.

(** X10. Whatever a stream receives, its main loop only appends to the work
    queue, at most one job for each event, and every job it queues names
    type URIs that are known and not the empty sentinel. *)
Theorem queued_jobs_name_known_type_URIs (events : list StreamEvent)
    (p : Proxy) (s : Server) :
  ∃ jobs,
    workqueues (snd (snd (mainLoop events (p, s)))) = (workqueues s ++ jobs)%list
    ∧ length jobs <= length events
    ∧ Forall (fun job =>
                Forall (fun t => ValidURI !! t = Some t ∧ t ≠ TypeEmptyURI)
                       (typeURIs job)) jobs.
Proof.
  revert p s. induction events as [| ev events IH]; intros p s.
  - exists []. simpl. rewrite app_nil_r. repeat split; [lia | constructor].
  - simpl. unfold St.bind.
    destruct (selectCase_queues ev p s) as (jobs1 & Hq1 & Hlen1 & Hok1).
    destruct (selectCase ev (p, s)) as [outcome [p1 s1]]. simpl in Hq1.
    destruct outcome as [| err].
    + destruct (IH p1 s1) as (jobs2 & Hq2 & Hlen2 & Hok2).
      exists (jobs1 ++ jobs2)%list. rewrite Hq2, Hq1, app_assoc.
      repeat split; [rewrite length_app; simpl; lia | by apply Forall_app].
    + exists jobs1. simpl. repeat split; [assumption | simpl; lia | assumption].
Qed.

(** ** When a stream ends *)

Lemma selectCase_continues (ev : StreamEvent) (st : Proxy * Server) :
  endsStream ev = false → fst (selectCase ev st) = Continue.
Proof.
  destruct st as [p s].
  destruct ev as [| | req | | | cn]; try discriminate; intros _;
    unfold selectCase, St.bind, St.ret, St.gets, AddJob, St.modify,
      callRespondToRequest; simpl.
  - by destruct (respondToRequest req _) as [[|] ps].
  - by destruct (shouldPushUpdate p).
  - by destruct (isCNforProxy p cn).
Qed.

Lemma selectCase_returns (ev : StreamEvent) (st : Proxy * Server) :
  endsStream ev = true →
  fst (selectCase ev st)
  = Return (match ev with requestsClosed => Some errGrpcClosed | _ => None end).
Proof. destruct st as [p s]. by destruct ev. Qed.

(** X11. The main loop returns on cancellation, on the quit signal and when the
    request channel is closed, and on nothing else: requests, broadcasts and
    certificate rotations leave it selecting. It returns the closed-stream
    error in the last case and no error in the first two, and does not look
    at what would come after. *)
Theorem stream_ends_only_when_closed (before after : list StreamEvent)
    (ev : StreamEvent) (st : Proxy * Server) :
  Forall (fun e => endsStream e = false) before →
  (∃ p, fst (mainLoop before st) = Selecting p)
  ∧ (endsStream ev = true →
     mainLoop (before ++ ev :: after) st = mainLoop (before ++ [ev]) st
     ∧ fst (mainLoop (before ++ ev :: after) st)
       = Returned (match ev with
                   | requestsClosed => Some errGrpcClosed
                   | _ => None
                   end)).
Proof.
  intros Hbefore. revert st.
  induction Hbefore as [| e before He Hbefore IH]; intros st.
  - split; [by exists (fst st) |]. intros Hends. simpl. unfold St.bind.
    pose proof (selectCase_returns ev st Hends) as Hret.
    destruct (selectCase ev st) as [outcome st']. simpl in Hret. subst outcome.
    split; reflexivity.
  - simpl. unfold St.bind.
    pose proof (selectCase_continues e st He) as Hcont.
    destruct (selectCase e st) as [outcome st']. simpl in Hcont. subst outcome.
    apply IH.
Qed.

End MainLoop.

Lemma stream_ends_only_when_closed_witness :
  let before := [requestReceived (samples.mkRequest TypeCDS "" "" [] None);
                 broadcastUpdate] in
  fst (@mainLoop samples.oneCluster
         (before ++ requestsClosed :: [broadcastUpdate])
         (samples.freshProxy, samples.idleServer))
  = Returned (Some errGrpcClosed).
Proof.
  cbv zeta.
  apply (@stream_ends_only_when_closed samples.oneCluster
           [requestReceived (samples.mkRequest TypeCDS "" "" [] None);
            broadcastUpdate]
           [broadcastUpdate] requestsClosed
           (samples.freshProxy, samples.idleServer));
    [repeat constructor | reflexivity].
Defined.

Section Lifecycle.
Context `{Collaborators}.

(** ** Registration and the connect gauge over the life of a stream *)

Lemma respondToRequest_keeps_connection (req : DiscoveryRequest) (s : ProxyState) :
  connectionID (proxy (snd (respondToRequest req s))) = connectionID (proxy s)
  ∧ ProxyConnectCount (metrics (snd (respondToRequest req s)))
    = ProxyConnectCount (metrics s).
Proof.
  destruct (respondToRequest_cases req s)
    as [[Hdrop _] | (requestVersion & Hvalid & Hsentinel & Hparse & Herr)].
  { by rewrite Hdrop. }
  rewrite (respondToRequest_past_checks _ _ _ _ Hvalid Hsentinel Hparse Herr).
  destruct (bool_decide (ResponseNonce req = "")); [split; reflexivity |].
  destruct (bool_decide (GetLastSentNonce (proxy s) (TypeUrl req) = ""));
    [split; reflexivity |].
  destruct (bool_decide (ResponseNonce req ≠ _)); [split; reflexivity |].
  destruct (IsWildcardTypeURI (TypeUrl req)); split; reflexivity.
Qed.

Lemma selectCase_keeps_registration (ev : StreamEvent) (p : Proxy) (s : Server) :
  (∀ job q, connectionID (runJob job q) = connectionID q) →
  let out := selectCase ev (p, s) in
  proxyRegistry (snd (snd out)) = proxyRegistry s
  ∧ connectionID (fst (snd out)) = connectionID p
  ∧ ProxyConnectCount (DefaultMetricsStore (snd (snd out)))
    = match fst out with
      | Continue => ProxyConnectCount (DefaultMetricsStore s)
      | Return _ => (ProxyConnectCount (DefaultMetricsStore s) - 1)%Z
      end.
Proof.
  intros Hconn. cbv zeta.
  destruct ev as [| | req | | | cn];
    unfold selectCase, St.bind, St.ret, St.gets, onServer, AddJob, St.modify,
      callRespondToRequest; simpl; try done.
  - pose proof (respondToRequest_keeps_connection req
                  {| proxy := p; metrics := DefaultMetricsStore s |})
      as [Hid Hcount].
    destruct (respondToRequest req _) as [[|] ps]; simpl in *;
      rewrite ?Hconn; done.
  - destruct (shouldPushUpdate p); simpl; rewrite ?Hconn; done.
  - destruct (isCNforProxy p cn); simpl; rewrite ?Hconn; done.
Qed.

Lemma mainLoop_keeps_registration (events : list StreamEvent)
    (p : Proxy) (s : Server) :
  (∀ job q, connectionID (runJob job q) = connectionID q) →
  let out := mainLoop events (p, s) in
  proxyRegistry (snd (snd out)) = proxyRegistry s
  ∧ connectionID (fst (snd out)) = connectionID p
  ∧ match fst out with
    | Selecting p' =>
        connectionID p' = connectionID p
        ∧ ProxyConnectCount (DefaultMetricsStore (snd (snd out)))
          = ProxyConnectCount (DefaultMetricsStore s)
    | Returned _ =>
        ProxyConnectCount (DefaultMetricsStore (snd (snd out)))
        = (ProxyConnectCount (DefaultMetricsStore s) - 1)%Z
    end.
Proof.
  intros Hconn. cbv zeta. revert p s.
  induction events as [| ev events IH]; intros p s; [done |].
  simpl. unfold St.bind.
  pose proof (selectCase_keeps_registration ev p s Hconn) as (Hreg & Hid & Hcount).
  destruct (selectCase ev (p, s)) as [outcome [p1 s1]]. simpl in Hreg, Hid, Hcount.
  destruct outcome as [| err]; simpl; [| done].
  specialize (IH p1 s1). rewrite Hreg, Hid, Hcount in IH. exact IH.
Qed.

(** X12. The life of a stream that got through start-up, the worker leaving the
    connection id of the proxy alone. While the stream waits in its main
    loop, its proxy is registered and the connect gauge is one above where
    the stream found it. Once the stream has returned, for whatever reason,
    its proxy is out of the registry and the gauge is back where the stream
    found it. *)
Theorem returned_stream_is_unregistered (ctx : PeerContext)
    (events : list StreamEvent) (s : Server) (cn serial : string) (p0 : Proxy) :
  ValidateClient ctx = inl (cn, serial) →
  ¬ capReached s →
  NewProxy cn serial (GetIPFromContext ctx) = inl p0 →
  snd (recordPodMetadata p0) ≠ Some errServiceAccountMismatch →
  (∀ job q, connectionID (runJob job q) = connectionID q) →
  let out := StreamAggregatedResources ctx events s in
  match fst out with
  | Selecting p =>
      connectionID p = connectionID p0
      ∧ connectionID p0 ∈ registry.connectedProxies (proxyRegistry (snd out))
      ∧ ProxyConnectCount (DefaultMetricsStore (snd out))
        = (ProxyConnectCount (DefaultMetricsStore s) + 1)%Z
  | Returned _ =>
      (connectionID p0 ∉ registry.connectedProxies (proxyRegistry (snd out)))
      ∧ ProxyConnectCount (DefaultMetricsStore (snd out))
        = ProxyConnectCount (DefaultMetricsStore s)
  end.
Proof.
  intros Hvalid Hcap Hnew Herr Hconn. cbv zeta.
  rewrite (StreamAggregatedResources_built ctx events s cn serial p0
             Hvalid Hcap Hnew).
  assert (connectionID (fst (recordPodMetadata p0)) = connectionID p0) as Hid0.
  { unfold recordPodMetadata. destruct (Kind p0); [| reflexivity].
    destruct (GetPodFromCertificate _) as [pod | msg]; [| reflexivity].
    destruct (controllerOf _) as [workloadKind workloadName].
    change (GetCertificateCommonName (SetPodMetadata _ p0))
      with (GetCertificateCommonName p0).
    destruct (GetServiceIdentityFromProxyCertificate _) as [certSA | msg];
      [| reflexivity].
    by case_bool_decide. }
  destruct (recordPodMetadata p0) as [p err]. simpl in Herr, Hid0 |- *.
  assert (match err with
          | Some errServiceAccountMismatch =>
              (Returned (Some errServiceAccountMismatch),
               withMetrics ProxyConnectCount_Inc s)
          | _ => serveProxy p events (withMetrics ProxyConnectCount_Inc s)
          end = serveProxy p events (withMetrics ProxyConnectCount_Inc s)) as ->.
  { destruct err as [[] |]; try reflexivity. by destruct Herr. }
  unfold serveProxy.
  pose proof (mainLoop_keeps_registration events p
                (withRegistry (registry.RegisterProxy p)
                   (withMetrics ProxyConnectCount_Inc s)) Hconn)
    as (Hreg & Hid & Hres).
  destruct (mainLoop events _) as [result [p' s']]. simpl in Hreg, Hid, Hres.
  destruct result as [e | q]; simpl.
  - rewrite Hreg, Hid, Hres. simpl. rewrite Hid0. split; [| lia].
    rewrite elem_of_difference, elem_of_singleton. tauto.
  - destruct Hres as [Hq Hcount]. rewrite Hreg, Hq, Hcount. simpl. rewrite Hid0.
    repeat split. apply elem_of_union_l, elem_of_singleton. reflexivity.
Qed.

(** X13. When start-up fails after the cap check, because the proxy cannot be
    built or because the service account of its certificate is not the
    pod's, the stream returns the error without registering the proxy or
    running the main loop, and the connect gauge it incremented on the way is
    not decremented. *)
Theorem failed_start_up_leaves_gauge_incremented (ctx : PeerContext)
    (events : list StreamEvent) (s : Server) (cn serial : string) :
  ValidateClient ctx = inl (cn, serial) →
  ¬ capReached s →
  let out := StreamAggregatedResources ctx events s in
  (∀ msg, NewProxy cn serial (GetIPFromContext ctx) = inr msg →
     fst out = Returned (Some (errExternal msg))
     ∧ proxyRegistry (snd out) = proxyRegistry s
     ∧ workqueues (snd out) = workqueues s
     ∧ ProxyConnectCount (DefaultMetricsStore (snd out))
       = (ProxyConnectCount (DefaultMetricsStore s) + 1)%Z)
  ∧ (∀ p0, NewProxy cn serial (GetIPFromContext ctx) = inl p0 →
     snd (recordPodMetadata p0) = Some errServiceAccountMismatch →
     fst out = Returned (Some errServiceAccountMismatch)
     ∧ proxyRegistry (snd out) = proxyRegistry s
     ∧ workqueues (snd out) = workqueues s
     ∧ ProxyConnectCount (DefaultMetricsStore (snd out))
       = (ProxyConnectCount (DefaultMetricsStore s) + 1)%Z).
Proof.
  intros Hvalid Hcap. cbv zeta. split.
  - intros msg Hnew. unfold StreamAggregatedResources.
    rewrite Hvalid, cap_check, (bool_decide_eq_false_2 _ Hcap), Hnew. done.
  - intros p0 Hnew Herr.
    rewrite (StreamAggregatedResources_built ctx events s cn serial p0
               Hvalid Hcap Hnew), Herr. done.
Qed.

End Lifecycle.

Lemma returned_stream_is_unregistered_witness :
  let out :=
    @StreamAggregatedResources samples.oneCluster
      "bookbuyer.default.cluster.local"
      [requestReceived (samples.mkRequest TypeCDS "" "" [] None); ctxDone]
      samples.idleServer in
  ("conn-1" ∉ registry.connectedProxies (proxyRegistry (snd out)))
  ∧ ProxyConnectCount (DefaultMetricsStore (snd out)) = 0%Z.
Proof.
  cbv zeta.
  exact (@returned_stream_is_unregistered samples.oneCluster
           "bookbuyer.default.cluster.local"
           [requestReceived (samples.mkRequest TypeCDS "" "" [] None); ctxDone]
           samples.idleServer "bookbuyer.default.cluster.local" "1"
           samples.freshProxy eq_refl
           (fun Hcap => proj1 Hcap eq_refl) eq_refl
           ltac:(vm_compute; discriminate) (fun _ _ => eq_refl)).
Defined.

(** A sidecar presents the certificate of another service account than its
    pod's. *)
Lemma failed_start_up_leaves_gauge_incremented_witness :
  let out :=
    @StreamAggregatedResources samples.oneCluster
      "bookbuyer.other.cluster.local" [] samples.idleServer in
  fst out = Returned (Some errServiceAccountMismatch)
  ∧ ProxyConnectCount (DefaultMetricsStore (snd out)) = 1%Z.
Proof.
  cbv zeta.
  destruct (@failed_start_up_leaves_gauge_incremented samples.oneCluster
              "bookbuyer.other.cluster.local" [] samples.idleServer
              "bookbuyer.other.cluster.local" "1" eq_refl
              (fun Hcap => proj1 Hcap eq_refl)) as [_ Hmismatch].
  destruct (Hmismatch
              (samples.builtProxy "bookbuyer.other.cluster.local" "1" KindSidecar)
              eq_refl ltac:(vm_compute; reflexivity))
    as (Hresult & _ & _ & Hcount).
  exact (conj Hresult Hcount).
Defined.

Section PodMetadata.
Context `{Collaborators}.

(** ** What [recordPodMetadata] records *)


(** X15. An error from [recordPodMetadata] means that the proxy is a sidecar whose
    pod was found, and comes after the pod's metadata has been written to
    the proxy: the proxy that the caller goes on with carries the pod's UID,
    name, namespace and service account even though the check failed. *)
Theorem error_comes_with_recorded_metadata (p : Proxy) (err : Error) :
  snd (recordPodMetadata p) = Some err →
  ∃ pod meta,
    Kind p = KindSidecar
    ∧ GetPodFromCertificate (GetCertificateCommonName p) = inl pod
    ∧ podMetadata (fst (recordPodMetadata p)) = Some meta
    ∧ UID meta = pod_UID pod
    ∧ Name meta = pod_Name pod
    ∧ Namespace meta = pod_Namespace pod
    ∧ ServiceAccount meta
      = {| identity.Namespace := pod_Namespace pod;
           identity.Name := pod_ServiceAccountName pod |}
    ∧ (WorkloadKind meta, WorkloadName meta)
      = controllerOf (pod_OwnerReferences pod)
    ∧ (err = errServiceAccountMismatch ∨ ∃ msg, err = errExternal msg).
Proof.
  unfold recordPodMetadata. destruct (Kind p); [| discriminate].
  destruct (GetPodFromCertificate _) as [pod | msg]; [| discriminate].
  destruct (controllerOf _) as [workloadKind workloadName] eqn:Hworkload.
  change (GetCertificateCommonName (SetPodMetadata _ p))
    with (GetCertificateCommonName p).
  destruct (GetServiceIdentityFromProxyCertificate _) as [certSA | msg].
  - case_bool_decide; [| discriminate]. simpl. intros [= <-].
    eexists pod, _.
    repeat split; try reflexivity; [by rewrite Hworkload | by left].
  - simpl. intros [= <-].
    eexists pod, _.
    repeat split; try reflexivity; [by rewrite Hworkload | right; by exists msg].
Qed.

End PodMetadata.


Lemma error_comes_with_recorded_metadata_witness :
  ∃ pod meta,
    @GetPodFromCertificate samples.oneCluster "bookbuyer.default" = inl pod
    ∧ podMetadata
        (fst (@recordPodMetadata samples.oneCluster
                (samples.builtProxy "bookbuyer.default" "1" KindSidecar)))
      = Some meta
    ∧ UID meta = pod_UID pod.
Proof.
  destruct (@error_comes_with_recorded_metadata samples.oneCluster
              (samples.builtProxy "bookbuyer.default" "1" KindSidecar)
              (errExternal "invalid certificate common name") eq_refl)
    as (pod & meta & _ & Hpod & Hmeta & Huid & _).
  exists pod, meta. exact (conj Hpod (conj Hmeta Huid)).
Defined.

End ads_stream_more.


(** * Further properties of the dispatcher *)

Module catalog_dispatcher_more.
Import events metricsstore catalog.

Section WithObjects.
Context {Obj : Type} `{EqDecision Obj}.

(** ** Invariants of a run *)

Lemma selectCase_invariant (now : Z) (c : SelectCase (Obj := Obj))
    (co co' : Coalescing) (fx fx' : Effects (Obj := Obj)) :
  selectCase now c (co, fx) = Some (co', fx') →
  timersFollowFlag co →
  timersFollowFlag co'
  ∧ ∃ k,
      fx' = Nat.iter k broadcast fx
      ∧ k + (if broadcastScheduled co' then 1 else 0)
        <= qualifyingCount [(now, c)] + (if broadcastScheduled co then 1 else 0).
Proof.
  intros Hstep Hflag. unfold timersFollowFlag in *.
  destruct co as [scheduled mv mx]. simpl in Hflag.
  destruct c as [[m |] | |]; simpl in Hstep.
  - unfold qualifyingCount, qualifies.
    destruct (isDeltaUpdate m || bool_decide (AnnouncementType m = _)).
    + destruct scheduled; simpl in Hstep; injection Hstep as <- <-; simpl;
        (split; [unfold After; split; eauto; tauto | exists 0; simpl; split; [done | lia]]).
    + injection Hstep as <- <-. simpl. split; [done |].
      exists 0. simpl. split; [done | lia].
  - injection Hstep as <- <-. split; [done |]. exists 0. simpl. split; [done | lia].
  - unfold ready in Hstep. destruct mv as [t |]; [| discriminate].
    destruct (bool_decide (t <= now)%Z); [| discriminate].
    injection Hstep as <- <-. simpl. split; [done |].
    exists 1. simpl. split; [done |].
    destruct scheduled; [lia | destruct Hflag; discriminate].
  - unfold ready in Hstep. destruct mx as [t |]; [| discriminate].
    destruct (bool_decide (t <= now)%Z); [| discriminate].
    injection Hstep as <- <-. simpl. split; [done |].
    exists 1. simpl. split; [done |].
    destruct scheduled; [lia | destruct Hflag; discriminate].
Qed.

Lemma qualifyingCount_cons (now : Z) (c : SelectCase (Obj := Obj))
    (trace : list (Z * SelectCase)) :
  qualifyingCount ((now, c) :: trace)
  = qualifyingCount [(now, c)] + qualifyingCount trace.
Proof. destruct c as [[m |] | |]; simpl; lia. Qed.

Lemma iter_broadcast_add (j k : nat) (fx : Effects (Obj := Obj)) :
  Nat.iter k broadcast (Nat.iter j broadcast fx) = Nat.iter (j + k) broadcast fx.
Proof.
  induction k as [| k IH]; simpl.
  - by rewrite Nat.add_0_r.
  - rewrite IH. by replace (j + S k) with (S (j + k)) by lia.
Qed.

Lemma dispatcherFrom_invariant (trace : list (Z * SelectCase (Obj := Obj)))
    (co co' : Coalescing) (fx fx' : Effects (Obj := Obj)) :
  dispatcherFrom trace (co, fx) = Some (co', fx') →
  timersFollowFlag co →
  timersFollowFlag co'
  ∧ ∃ k,
      fx' = Nat.iter k broadcast fx
      ∧ k + (if broadcastScheduled co' then 1 else 0)
        <= qualifyingCount trace + (if broadcastScheduled co then 1 else 0).
Proof.
  revert co fx. induction trace as [| [now c] trace IH]; intros co fx Hrun Hflag.
  - simpl in Hrun. injection Hrun as <- <-. split; [done |].
    exists 0. simpl. split; [done | lia].
  - cbn [dispatcherFrom] in Hrun.
    destruct (selectCase now c (co, fx)) as [[co1 fx1] |] eqn:Hstep;
      [| discriminate].
    destruct (selectCase_invariant _ _ _ _ _ _ Hstep Hflag)
      as (Hflag1 & j & -> & Hj).
    destruct (IH _ _ Hrun Hflag1) as (Hflag' & k & -> & Hk).
    split; [done |]. exists (j + k). rewrite iter_broadcast_add.
    split; [done |]. rewrite qualifyingCount_cons. lia.
Qed.

Lemma iter_broadcast (k : nat) (fx : Effects (Obj := Obj)) :
  published (Nat.iter k broadcast fx)
  = (published fx
     ++ replicate k {| AnnouncementType := announcements.ProxyBroadcast;
                       OldObj := None; NewObj := None |})%list
  ∧ ProxyBroadcastEventCount (metrics (Nat.iter k broadcast fx))
    = (ProxyBroadcastEventCount (metrics fx) + N.of_nat k)%N
  ∧ ProxyConnectCount (metrics (Nat.iter k broadcast fx))
    = ProxyConnectCount (metrics fx)
  ∧ ProxyReconnectCount (metrics (Nat.iter k broadcast fx))
    = ProxyReconnectCount (metrics fx).
Proof.
  induction k as [| k IH].
  - simpl. rewrite app_nil_r. repeat split. lia.
  - change (Nat.iter (S k) broadcast fx)
      with (broadcast (Nat.iter k broadcast fx)).
    destruct IH as (Hpub & Hcount & Hconnect & Hreconnect).
    destruct (Nat.iter k broadcast fx) as [pub m]. simpl in *.
    rewrite Hpub, Hcount, Hconnect, Hreconnect. repeat split; [| lia].
    rewrite <- app_assoc. f_equal. symmetry. apply replicate_cons_app.
Qed.

(** X16. In every state the loop reaches, a broadcast is marked scheduled exactly
    when both timers are armed, and not scheduled exactly when neither is:
    the loop never waits on a single timer, nor on a timer without a
    scheduled broadcast. *)
Theorem timers_follow_the_scheduled_flag
    (trace : list (Z * SelectCase (Obj := Obj)))
    (fx fx' : Effects (Obj := Obj)) (co : Coalescing) :
  dispatcher trace fx = Some (co, fx') →
  (broadcastScheduled co = true
   ↔ is_Some (chanMovingDeadline co) ∧ is_Some (chanMaxDeadline co))
  ∧ (broadcastScheduled co = false
     ↔ chanMovingDeadline co = None ∧ chanMaxDeadline co = None).
Proof.
  intros Hrun. unfold dispatcher in Hrun.
  destruct (dispatcherFrom_invariant _ _ _ _ _ Hrun) as [Hflag _]; [done |].
  unfold timersFollowFlag in Hflag.
  destruct co as [[|] mv mx]; simpl in *; destruct Hflag as [Hmv Hmx].
  - split; [tauto |]. split; [discriminate |].
    intros [-> _]. by destruct Hmv.
  - subst. split; [| tauto]. split; [discriminate |].
    intros [[? Hsome] _]. discriminate.
Qed.

(** X17. The loop publishes nothing but proxy-broadcasts, counts each one it
    publishes, and never publishes more of them than it received qualifying
    messages; while a broadcast is still scheduled, it has published fewer. *)
Theorem broadcasts_need_qualifying_messages
    (trace : list (Z * SelectCase (Obj := Obj)))
    (fx fx' : Effects (Obj := Obj)) (co : Coalescing) :
  dispatcher trace fx = Some (co, fx') →
  ∃ k,
    published fx'
    = (published fx
       ++ replicate k {| AnnouncementType := announcements.ProxyBroadcast;
                         OldObj := None; NewObj := None |})%list
    ∧ ProxyBroadcastEventCount (metrics fx')
      = (ProxyBroadcastEventCount (metrics fx) + N.of_nat k)%N
    ∧ ProxyConnectCount (metrics fx') = ProxyConnectCount (metrics fx)
    ∧ ProxyReconnectCount (metrics fx') = ProxyReconnectCount (metrics fx)
    ∧ k + (if broadcastScheduled co then 1 else 0) <= qualifyingCount trace.
Proof.
  intros Hrun. unfold dispatcher in Hrun.
  destruct (dispatcherFrom_invariant _ _ _ _ _ Hrun) as (_ & k & -> & Hk);
    [done |].
  exists k. destruct (iter_broadcast k fx) as (Hpub & Hcount & Hconnect & Hreconnect).
  simpl in Hk. repeat split; [assumption .. | lia].
Qed.

(** X18. Messages that do not qualify, and values that are no messages, can be
    struck from what the loop receives without any difference to what it
    does. *)
Theorem ignored_messages_can_be_dropped
    (trace : list (Z * SelectCase (Obj := Obj)))
    (st : Coalescing * Effects (Obj := Obj)) :
  dispatcherFrom (filter (fun tc => relevant (snd tc) = true) trace) st
  = dispatcherFrom trace st.
Proof.
  revert st. induction trace as [| [now c] trace IH]; intros st; [reflexivity |].
  rewrite filter_cons. simpl.
  destruct (relevant c) eqn:Hrel.
  - rewrite decide_True by reflexivity. simpl.
    destruct (selectCase now c st); [apply IH | reflexivity].
  - rewrite decide_False by discriminate. rewrite IH.
    destruct st as [co fx].
    destruct c as [[m |] | |]; simpl in Hrel; try discriminate; simpl.
    + unfold qualifies in Hrel. by rewrite Hrel.
    + reflexivity.
Qed.

End WithObjects.

Lemma timers_follow_the_scheduled_flag_witness :
  let trace :=
    [(0%Z, subChannel (IsPubSubMessage samples.podAdded));
     (1000000000%Z, subChannel (IsPubSubMessage samples.podResynced))] in
  dispatcher trace samples.nothingPublished
  = Some ({| broadcastScheduled := true;
             chanMovingDeadline := Some 3000000000%Z;
             chanMaxDeadline := Some 15000000000%Z |}, samples.nothingPublished)
  ∧ (true = true ↔ is_Some (Some 3000000000%Z) ∧ is_Some (Some 15000000000%Z)).
Proof.
  cbv zeta. split; [reflexivity |].
  exact (proj1 (timers_follow_the_scheduled_flag
                  [(0%Z, subChannel (IsPubSubMessage samples.podAdded));
                   (1000000000%Z, subChannel (IsPubSubMessage samples.podResynced))]
                  samples.nothingPublished samples.nothingPublished
                  {| broadcastScheduled := true;
                     chanMovingDeadline := Some 3000000000%Z;
                     chanMaxDeadline := Some 15000000000%Z |} eq_refl)).
Defined.

(** Two qualifying messages have arrived and no timer has fired yet: nothing
    is published so far. *)
Lemma broadcasts_need_qualifying_messages_witness :
  let trace :=
    [(0%Z, subChannel (IsPubSubMessage samples.podAdded));
     (1000000000%Z, subChannel (IsPubSubMessage samples.podChanged))] in
  let scheduled :=
    {| broadcastScheduled := true;
       chanMovingDeadline := Some 4000000000%Z;
       chanMaxDeadline := Some 15000000000%Z |} in
  dispatcher trace samples.nothingPublished
  = Some (scheduled, samples.nothingPublished)
  ∧ ∃ k,
      published samples.nothingPublished
      = (published samples.nothingPublished
         ++ replicate k {| AnnouncementType := announcements.ProxyBroadcast;
                           OldObj := None; NewObj := None |})%list
      ∧ k + 1 <= 2.
Proof.
  cbv zeta.
  assert (dispatcher
            [(0%Z, subChannel (IsPubSubMessage samples.podAdded));
             (1000000000%Z, subChannel (IsPubSubMessage samples.podChanged))]
            samples.nothingPublished
          = Some ({| broadcastScheduled := true;
                     chanMovingDeadline := Some 4000000000%Z;
                     chanMaxDeadline := Some 15000000000%Z |},
                  samples.nothingPublished)) as Hrun
    by (vm_compute; reflexivity).
  split; [exact Hrun |].
  destruct (broadcasts_need_qualifying_messages _ _ _ _ Hrun)
    as (k & Hpub & _ & _ & _ & Hk).
  exists k. split; [exact Hpub | exact Hk].
Defined.

End catalog_dispatcher_more.

(** * Properties of the removal of duplicate clusters *)

Module cds_properties.
Import cds.

Lemma names_snoc (cdsResources : list Cluster) (cluster : Cluster) :
  ({[ Name cluster ]} ∪ list_to_set (Name <$> cdsResources) : gset string)
  = list_to_set (Name <$> (cdsResources ++ [cluster])%list).
Proof.
  rewrite fmap_app, list_to_set_app_L. simpl.
  rewrite (right_id_L ∅ (∪)). apply (comm_L (∪)).
Qed.

Lemma removeDups_loop (clusters : list Cluster) (alreadyAdded : gset string)
    (cdsResources : list Cluster) :
  alreadyAdded = list_to_set (Name <$> cdsResources) →
  NoDup (Name <$> cdsResources) →
  let out :=
    foldl (fun '(alreadyAdded, cdsResources) cluster =>
             if bool_decide (Name cluster ∈ (alreadyAdded : gset string))
             then (alreadyAdded, cdsResources)
             else ({[ Name cluster ]} ∪ alreadyAdded,
                   (cdsResources ++ [cluster])%list))
          (alreadyAdded, cdsResources) clusters in
  NoDup (Name <$> snd out)
  ∧ ∃ kept,
      snd out = (cdsResources ++ kept)%list
      ∧ kept `sublist_of` clusters
      ∧ (∀ n, n ∈ Name <$> clusters → n ∈ Name <$> snd out)
      ∧ (∀ c, c ∈ kept →
           ∃ pre post, clusters = (pre ++ c :: post)%list
                       ∧ (Name c ∉ Name <$> pre)
                       ∧ (Name c ∉ alreadyAdded)).
Proof.
  revert alreadyAdded cdsResources.
  induction clusters as [| cluster clusters IH];
    intros alreadyAdded cdsResources Hseen Hnodup; cbv zeta.
  - simpl. split; [exact Hnodup |]. exists []. rewrite app_nil_r.
    repeat split; [done | | ].
    + intros n Hn. by apply elem_of_nil in Hn.
    + intros c Hc. by apply elem_of_nil in Hc.
  - cbn [foldl]. case_bool_decide as Hin.
    + destruct (IH alreadyAdded cdsResources Hseen Hnodup)
        as (Hnodup' & kept & Hout & Hsub & Hnames & Hfirst).
      split; [exact Hnodup' |]. exists kept.
      split; [exact Hout |]. split; [by apply sublist_cons |]. split.
      * intros n Hn. rewrite fmap_cons, elem_of_cons in Hn.
        destruct Hn as [-> | Hn]; [| by apply Hnames].
        rewrite Hout, fmap_app, elem_of_app. left.
        rewrite Hseen in Hin. by apply elem_of_list_to_set in Hin.
      * intros c Hc. destruct (Hfirst c Hc) as (pre & post & -> & Hpre & Hnew).
        exists (cluster :: pre), post. split; [reflexivity |].
        split; [| exact Hnew].
        rewrite fmap_cons, not_elem_of_cons. split; [| exact Hpre].
        intros Heq. rewrite Heq in Hnew. by apply Hnew.
    + assert (Name cluster ∉ Name <$> cdsResources) as Hfresh.
      { intros Hold. apply Hin. rewrite Hseen. by apply elem_of_list_to_set. }
      destruct (IH ({[ Name cluster ]} ∪ alreadyAdded)
                  (cdsResources ++ [cluster])%list)
        as (Hnodup' & kept & Hout & Hsub & Hnames & Hfirst).
      { rewrite Hseen. apply names_snoc. }
      { rewrite fmap_app. simpl. apply NoDup_app.
        split; [exact Hnodup |]. split; [| apply NoDup_singleton].
        intros n Hn Hn'. apply list_elem_of_singleton in Hn'. by subst. }
      split; [exact Hnodup' |]. exists (cluster :: kept).
      split; [by rewrite Hout, <- app_assoc |].
      split; [by apply sublist_skip |]. split.
      * intros n Hn. rewrite fmap_cons, elem_of_cons in Hn.
        destruct Hn as [-> | Hn]; [| by apply Hnames].
        rewrite Hout, !fmap_app, !elem_of_app. left; right.
        simpl. apply list_elem_of_singleton. reflexivity.
      * intros c Hc. apply elem_of_cons in Hc. destruct Hc as [-> | Hc].
        -- exists [], clusters. repeat split; [| exact Hin].
           simpl. apply not_elem_of_nil.
        -- destruct (Hfirst c Hc) as (pre & post & -> & Hpre & Hnew).
           exists (cluster :: pre), post. split; [reflexivity |].
           apply not_elem_of_union in Hnew as [Hne Hnew].
           split; [| exact Hnew].
           rewrite fmap_cons, not_elem_of_cons. split; [| exact Hpre].
           intros Heq. apply Hne. rewrite Heq. by apply elem_of_singleton.
Qed.

Lemma removeDups_spec (clusters : list Cluster) :
  NoDup (Name <$> removeDups clusters)
  ∧ removeDups clusters `sublist_of` clusters
  ∧ (∀ n, n ∈ Name <$> clusters → n ∈ Name <$> removeDups clusters)
  ∧ (∀ c, c ∈ removeDups clusters →
       ∃ pre post, clusters = (pre ++ c :: post)%list ∧ (Name c ∉ Name <$> pre)).
Proof.
  unfold removeDups.
  destruct (removeDups_loop clusters ∅ [])
    as (Hnodup & kept & Hout & Hsub & Hnames & Hfirst);
    [done | constructor |].
  simpl in Hout. rewrite Hout in *.
  repeat split; [exact Hnodup | exact Hsub | exact Hnames |].
  intros c Hc. destruct (Hfirst c Hc) as (pre & post & Heq & Hpre & _).
  by exists pre, post.
Qed.

(** X19. The clusters that are kept have pairwise distinct names, are clusters of
    the input in the order of the input, and keep every name of the input:
    no name is lost and none is sent twice. *)
Theorem kept_clusters_have_unique_names (clusters : list Cluster) :
  NoDup (Name <$> removeDups clusters)
  ∧ removeDups clusters `sublist_of` clusters
  ∧ (∀ n, n ∈ Name <$> removeDups clusters ↔ n ∈ Name <$> clusters).
Proof.
  destruct (removeDups_spec clusters) as (Hnodup & Hsub & Hnames & _).
  repeat split; [exact Hnodup | exact Hsub | | apply Hnames].
  intros Hn. apply list_elem_of_fmap in Hn as (c & -> & Hc).
  apply list_elem_of_fmap. exists c. split; [reflexivity |].
  by apply (elem_of_sublist _ _ _ Hc).
Qed.

Lemma first_occurrence_unique (pre1 pre2 post1 post2 : list Cluster)
    (c1 c2 : Cluster) :
  (pre1 ++ c1 :: post1 = pre2 ++ c2 :: post2)%list →
  Name c1 = Name c2 →
  Name c1 ∉ Name <$> pre1 →
  Name c2 ∉ Name <$> pre2 →
  c1 = c2.
Proof.
  revert pre2. induction pre1 as [| x pre1 IH]; intros [| y pre2];
    rewrite ?fmap_cons, ?not_elem_of_cons; simpl.
  - by intros [= -> _].
  - intros [= <- _] Hname _ [Hne _]. by destruct Hne.
  - intros [= -> _] Hname [Hne _] _. by destruct Hne.
  - intros [= -> Heq] Hname [_ Hpre1] [_ Hpre2].
    by apply (IH pre2 Heq Hname).
Qed.

(** X20. Of the clusters that share a name, the one that is kept is the first of
    the input: a cluster is kept exactly when no cluster before it has its
    name. *)
Theorem first_cluster_of_a_name_is_kept (clusters : list Cluster) (c : Cluster) :
  c ∈ removeDups clusters
  ↔ ∃ pre post, clusters = (pre ++ c :: post)%list ∧ (Name c ∉ Name <$> pre).
Proof.
  destruct (removeDups_spec clusters) as (_ & _ & Hnames & Hfirst).
  split; [apply Hfirst |].
  intros (pre & post & Heq & Hpre).
  assert (Name c ∈ Name <$> removeDups clusters) as Hkept.
  { apply Hnames. rewrite Heq, fmap_app, elem_of_app. right.
    rewrite fmap_cons. apply elem_of_cons. by left. }
  apply list_elem_of_fmap in Hkept as (c' & Hname & Hc').
  destruct (Hfirst c' Hc') as (pre' & post' & Heq' & Hpre').
  rewrite Heq in Heq'.
  by rewrite (first_occurrence_unique pre pre' post post' c c' Heq' Hname Hpre Hpre').
Qed.

Lemma removeDups_loop_id (clusters : list Cluster) (alreadyAdded : gset string)
    (cdsResources : list Cluster) :
  alreadyAdded = list_to_set (Name <$> cdsResources) →
  NoDup (Name <$> (cdsResources ++ clusters)%list) →
  snd (foldl (fun '(alreadyAdded, cdsResources) cluster =>
                if bool_decide (Name cluster ∈ (alreadyAdded : gset string))
                then (alreadyAdded, cdsResources)
                else ({[ Name cluster ]} ∪ alreadyAdded,
                      (cdsResources ++ [cluster])%list))
             (alreadyAdded, cdsResources) clusters)
  = (cdsResources ++ clusters)%list.
Proof.
  revert alreadyAdded cdsResources.
  induction clusters as [| cluster clusters IH];
    intros alreadyAdded cdsResources Hseen Hnodup.
  - simpl. by rewrite app_nil_r.
  - cbn [foldl]. rewrite bool_decide_eq_false_2.
    + rewrite (IH _ (cdsResources ++ [cluster])%list).
      * by rewrite <- app_assoc.
      * rewrite Hseen. apply names_snoc.
      * by rewrite <- app_assoc.
    + rewrite Hseen, elem_of_list_to_set. intros Hold.
      rewrite fmap_app in Hnodup. apply NoDup_app in Hnodup as (_ & Hdisj & _).
      apply (Hdisj _ Hold). rewrite fmap_cons. apply elem_of_cons. by left.
Qed.

(** X21. A list of clusters is returned as it is exactly when its names are
    pairwise distinct; so removing duplicates a second time changes
    nothing. *)
Theorem duplicate_free_clusters_are_unchanged (clusters : list Cluster) :
  (removeDups clusters = clusters ↔ NoDup (Name <$> clusters))
  ∧ removeDups (removeDups clusters) = removeDups clusters.
Proof.
  assert (∀ l, NoDup (Name <$> l) → removeDups l = l) as Hid.
  { intros l Hl. unfold removeDups. by rewrite removeDups_loop_id. }
  destruct (removeDups_spec clusters) as (Hnodup & _).
  split; [split |].
  - intros Heq. by rewrite Heq in Hnodup.
  - apply Hid.
  - by apply Hid.
Qed.

End cds_properties.

(** * Properties of the certificate-release handler *)

Module registry_handlers_properties.
Import events registry_handlers.

Lemma handlePodDeleted_effect (podDeletedMsg : Message K8sObject)
    (st : HandlerState) :
  let st' := handlePodDeleted podDeletedMsg st in
  podUIDToCN st' = podUIDToCN st
  ∧ ∃ cns,
      released st' = (released st ++ cns)%list
      ∧ published st'
        = (published st
           ++ replicate (length cns)
                {| AnnouncementType := announcements.ScheduleProxyBroadcast;
                   OldObj := None; NewObj := None |})%list
      ∧ length cns <= 1
      ∧ Forall (fun cn => ∃ uid, podUIDToCN st !! uid = Some cn) cns.
Proof.
  cbv zeta. unfold handlePodDeleted.
  destruct podDeletedMsg as [m |];
    [destruct (OldObj m) as [[pod |] |];
     [destruct (podUIDToCN st !! ads.pod_UID pod) as [cn |] eqn:Hcn | |] |];
    simpl; (split; [reflexivity |]);
    try (exists []; rewrite !app_nil_r; repeat split; [simpl; lia | constructor]).
  exists [cn]. repeat split; [simpl; lia |].
  constructor; [by exists (ads.pod_UID pod) | constructor].
Qed.

(** X22. Over any run of the handler, the index from pod UID to common name is
    left as it is (an entry is not removed when its certificate is
    released); the common names released are all taken from that index; and
    the handler publishes one schedule-proxy-broadcast, carrying no object,
    for each certificate it releases, and nothing else. *)
Theorem one_broadcast_request_per_release (evs : list HandlerEvent)
    (st : HandlerState) :
  let st' := snd (ReleaseCertificateHandler evs st) in
  podUIDToCN st' = podUIDToCN st
  ∧ ∃ cns,
      released st' = (released st ++ cns)%list
      ∧ published st'
        = (published st
           ++ replicate (length cns)
                {| AnnouncementType := announcements.ScheduleProxyBroadcast;
                   OldObj := None; NewObj := None |})%list
      ∧ length cns <= length evs
      ∧ Forall (fun cn => ∃ uid, podUIDToCN st !! uid = Some cn) cns.
Proof.
  cbv zeta. revert st. induction evs as [| [| msg] evs IH]; intros st;
    cbn [ReleaseCertificateHandler snd].
  - split; [reflexivity |]. exists []. rewrite !app_nil_r.
    repeat split; [simpl; lia | constructor].
  - split; [reflexivity |]. exists []. rewrite !app_nil_r.
    repeat split; [simpl; lia | constructor].
  - destruct (handlePodDeleted_effect msg st)
      as (Hindex & cns1 & Hrel1 & Hpub1 & Hlen1 & Hfrom1).
    destruct (IH (handlePodDeleted msg st))
      as (Hindex' & cns2 & Hrel2 & Hpub2 & Hlen2 & Hfrom2).
    split; [by rewrite Hindex' |]. exists (cns1 ++ cns2)%list.
    rewrite Hrel2, Hrel1, Hpub2, Hpub1, <- !app_assoc, length_app, replicate_add.
    repeat split; [simpl; lia |].
    apply Forall_app. split; [exact Hfrom1 |]. by rewrite Hindex in Hfrom2.
Qed.

(** A message makes the handler release a certificate exactly when its old
    object is a pod whose UID is in the index; the announcement type and the
    new object of the message are not looked at, and a value that is no
    message, a message without old object, or one whose old object is no pod
    does nothing. *)
Lemma release_exactly_for_indexed_pod (podDeletedMsg : Message K8sObject)
    (st : HandlerState) (cn : string) :
  released (handlePodDeleted podDeletedMsg st) = (released st ++ [cn])%list
  ↔ ∃ psubMessage pod,
      podDeletedMsg = IsPubSubMessage psubMessage
      ∧ OldObj psubMessage = Some (PodObject pod)
      ∧ podUIDToCN st !! ads.pod_UID pod = Some cn.
Proof.
  assert (∀ l : list string, l ≠ (l ++ [cn])%list) as Hgrow.
  { intros l Heq. apply (f_equal length) in Heq.
    rewrite length_app in Heq. simpl in Heq. lia. }
  unfold handlePodDeleted. split.
  - destruct podDeletedMsg as [m |]; [| intros Heq; by apply Hgrow in Heq].
    destruct (OldObj m) as [[pod |] |] eqn:Hold;
      try (intros Heq; by apply Hgrow in Heq).
    destruct (podUIDToCN st !! ads.pod_UID pod) as [cn' |] eqn:Hcn;
      [| intros Heq; by apply Hgrow in Heq].
    simpl. intros Heq. apply app_inv_head in Heq. injection Heq as ->.
    by exists m, pod.
  - intros (m & pod & -> & Hold & Hcn). by rewrite Hold, Hcn.
Qed.

Lemma ReleaseCertificateHandler_publishes (evs : list HandlerEvent)
    (st : HandlerState) :
  ∃ cns,
    released (snd (ReleaseCertificateHandler evs st)) = (released st ++ cns)%list
    ∧ published (snd (ReleaseCertificateHandler evs st))
      = (published st
         ++ replicate (length cns)
              {| AnnouncementType := announcements.ScheduleProxyBroadcast;
                 OldObj := None; NewObj := None |})%list.
Proof.
  revert st. induction evs as [| [| msg] evs IH]; intros st;
    cbn [ReleaseCertificateHandler snd];
    try (exists []; by rewrite !app_nil_r).
  destruct (handlePodDeleted_effect msg st) as (_ & cns1 & Hrel1 & Hpub1 & _).
  destruct (IH (handlePodDeleted msg st)) as (cns2 & Hrel2 & Hpub2).
  exists (cns1 ++ cns2)%list.
  by rewrite Hrel2, Hrel1, Hpub2, Hpub1, <- !app_assoc, length_app, replicate_add.
Qed.

(** X23. Each message the handler publishes, when it reaches the dispatcher while
    no broadcast is scheduled, schedules one: it arms the grace deadline and
    the hard deadline. *)
Theorem published_request_schedules_broadcast (evs : list HandlerEvent)
    (st : HandlerState) (now : Z) (fx : catalog.Effects (Obj := K8sObject)) :
  let new :=
    drop (length (published st))
         (published (snd (ReleaseCertificateHandler evs st))) in
  length new = (length (released (snd (ReleaseCertificateHandler evs st)))
                - length (released st))%nat
  ∧ Forall (fun psubMessage =>
              catalog.dispatcher
                [(now, catalog.subChannel (IsPubSubMessage psubMessage))] fx
              = Some ({| catalog.broadcastScheduled := true;
                         catalog.chanMovingDeadline :=
                           Some (now + catalog.maxGraceDeadlineTime)%Z;
                         catalog.chanMaxDeadline :=
                           Some (now + catalog.maxBroadcastDeadlineTime)%Z |},
                      fx)) new.
Proof.
  cbv zeta.
  destruct (ReleaseCertificateHandler_publishes evs st) as (cns & Hrel & Hpub).
  rewrite Hpub, Hrel, drop_app_length, length_replicate, length_app.
  split; [lia |].
  apply Forall_replicate. unfold catalog.dispatcher. cbn [catalog.dispatcherFrom].
  rewrite catalog_dispatcher.qualifying_message_step; [reflexivity |].
  unfold catalog.qualifies. rewrite bool_decide_eq_true_2 by reflexivity.
  apply orb_true_r.
Qed.

End registry_handlers_properties.
